(** * Dependency-ordered table traversal of the migration tool

    A shallow embedding of [dgraph/cmd/migrate/topo_sort.go]: the three
    colours, [visit] and [topoSortTables], followed by the properties of
    the ordering they compute. *)

From Stdlib Require Import HexString.
From stdpp Require Import gmap strings list fin_maps relations.

#[local] Set Warnings "-clear-no-such-hyp".

(** ** Data model *)

(** [type NodeColor int] with the constants [WHITE], [GREY], [BLACK]
    declared through [iota]; [WHITE] is the zero value. The two functions
    store no other value. *)
Inductive NodeColor := WHITE | GREY | BLACK.

#[global] Instance NodeColor_eq_dec : EqDecision NodeColor.
Proof. solve_decision. Defined.

(** Modelled from the spec: the declaration of [TableInfo] is not part of
    the two source files. [visit] only reads its field [referencedTables]
    and ranges over it with one string-valued iteration variable; the
    specification describes it as the set of referenced table names,
    without order and without duplicates. *)
Record TableInfo := mkTableInfo { referencedTables : gset string }.

(** The value of an [error]: [None] is [nil]. *)
Definition error := option string.

(** Program points of [visit] at which the run is observed. *)
Inductive point :=
| AtEntry   (* the switch on nodeColor[curTable] is reached *)
| AtGrey    (* nodeColor[curTable] = GREY has been executed *)
| AtRange   (* the range over tables[curTable].referencedTables starts *)
| AtBlack   (* nodeColor[curTable] = BLACK has been executed *)
| AtReturn. (* return collector, nil is reached *)

#[global] Instance point_eq_dec : EqDecision point.
Proof. solve_decision. Defined.

(** One observation: the program point, the [curTable] arguments of the
    calls of [visit] that are active above the observed one (innermost
    caller first), the [curTable] of the observed call and the content of
    [nodeColor] at that moment. *)
Record snapshot := Snap {
  snap_point : point;
  snap_ancestors : list string;
  snap_table : string;
  snap_colors : gmap string NodeColor
}.

(** The part of the Go heap the two functions work on. Both maps are
    passed by reference, so their contents live in the state.
    [tables] holds [*TableInfo] values: [Some None] is a key whose pointer
    is [nil]; a nil map reads like the empty one. [nodeColor] is the
    content of an allocated map, as [topoSortTables] makes it before the
    first call of [visit]. [rng] stands for the runtime's source of map
    iteration orders: it counts the range statements executed so far.
    [log] is ghost: the observations made so far, most recent first; the
    code never reads it. *)
Record state := State {
  tables : gmap string (option TableInfo);
  nodeColor : gmap string NodeColor;
  rng : nat;
  log : list snapshot
}.

(** What a call can do: return its pair of results, panic (a nil pointer
    dereference), or exhaust the recursion budget of the model. *)
Inductive outcome :=
| Returned (r : list string * error) (σ : state)
| Panicked (σ : state)
| OutOfFuel.

(** ** Primitive operations *)

(** [m[k]] on a [map[string]NodeColor]: an absent key reads as the zero
    value. *)
Definition color (m : gmap string NodeColor) (k : string) : NodeColor :=
  default WHITE (m !! k).

(** [m[k]] on a [map[string]*TableInfo]: an absent key reads as [nil]. *)
Definition tableAt (m : gmap string (option TableInfo)) (k : string)
  : option TableInfo := default None (m !! k).

(** [nodeColor[k] = c] *)
Definition set_nodeColor (k : string) (c : NodeColor) (σ : state) : state :=
  State (tables σ) (<[k := c]> (nodeColor σ)) (rng σ) (log σ).

Definition observe (p : point) (ancestors : list string) (curTable : string)
    (σ : state) : state :=
  State (tables σ) (nodeColor σ) (rng σ)
        (Snap p ancestors curTable (nodeColor σ) :: log σ).

(** [fmt.Errorf("found reference loops while visiting table %s", curTable)] *)
Definition cycleError (curTable : string) : string :=
  "found reference loops while visiting table " +:+ curTable.

Section Run.

(** The order in which a range statement yields the keys of a map is not
    specified by the language. [mapiter n s] is the order chosen by the
    [n]-th range statement of the run for a map whose key set is [s]. *)
Variable mapiter : nat → gset string → list string.

Definition range_keys (s : gset string) (σ : state) : list string * state :=
  (mapiter (rng σ) s, State (tables σ) (nodeColor σ) (S (rng σ)) (log σ)).

(** The body shared by the two loops that call [visit]:
<<
    for x := range ... {
        collector, err = visit(tables, nodeColor, x, collector)
        if err != nil { return nil, err }
    }
>>
    [rec] is the call of [visit] with everything but the table and the
    collector fixed. A normal end of the loop yields the collector and a
    nil error. *)
Fixpoint visit_each (rec : string → list string → state → outcome)
    (keys : list string) (collector : list string) (σ : state) : outcome :=
  match keys with
  | [] => Returned (collector, None) σ
  | x :: rest =>
      match rec x collector σ with
      | Returned (collector', None) σ' => visit_each rec rest collector' σ'
      | Returned (_, Some err) σ' => Returned ([], Some err) σ'
      | Panicked σ' => Panicked σ'
      | OutOfFuel => OutOfFuel
      end
  end.

(** [visit]. [fuel] bounds the depth of the recursion; [ancestors] is
    ghost and only feeds the observations. The nil slice is the empty
    list. *)
Fixpoint visit (fuel : nat) (ancestors : list string) (curTable : string)
    (collector : list string) (σ : state) : outcome :=
  match fuel with
  | O => OutOfFuel
  | S fuel' =>
      let σ := observe AtEntry ancestors curTable σ in
      match color (nodeColor σ) curTable with
      | WHITE =>
          let σ := observe AtGrey ancestors curTable
                     (set_nodeColor curTable GREY σ) in
          match tableAt (tables σ) curTable with
          | None => Panicked σ
          | Some info =>
              let '(children, σ) := range_keys (referencedTables info) σ in
              let σ := observe AtRange ancestors curTable σ in
              match visit_each (visit fuel' (curTable :: ancestors))
                               children collector σ with
              | Returned (collector, None) σ =>
                  let σ := observe AtBlack ancestors curTable
                             (set_nodeColor curTable BLACK σ) in
                  let collector := collector ++ [curTable] in
                  Returned (collector, None)
                           (observe AtReturn ancestors curTable σ)
              | other => other
              end
          end
      | GREY => Returned ([], Some (cycleError curTable)) σ
      | BLACK => Returned (collector, None)
                          (observe AtReturn ancestors curTable σ)
      end
  end.

(** The state in which [topoSortTables] starts: the caller's map, and
    [nodeColor := make(map[string]NodeColor)]. *)
Definition initial (tbls : gmap string (option TableInfo)) : state :=
  State tbls ∅ 0 [].

(** [topoSortTables] *)
Definition topoSortTables (fuel : nat)
    (tbls : gmap string (option TableInfo)) : outcome :=
  let σ := initial tbls in
  let '(keys, σ) := range_keys (dom (tables σ)) σ in
  let σ := foldl (λ σ table, set_nodeColor table WHITE σ) σ keys in
  let collector := [] in
  let '(keys, σ) := range_keys (dom (tables σ)) σ in
  visit_each (visit fuel []) keys collector σ.

End Run.

Definition outcome_state (o : outcome) : option state :=
  match o with
  | Returned _ σ | Panicked σ => Some σ
  | OutOfFuel => None
  end.

Definition result (o : outcome) : option (list string * error) :=
  match o with Returned r _ => Some r | _ => None end.

(** A state and an outcome without their ghost part. *)
Definition erase (σ : state) : state :=
  State (tables σ) (nodeColor σ) (rng σ) [].

Definition erase_outcome (o : outcome) : outcome :=
  match o with
  | Returned r σ => Returned r (erase σ)
  | Panicked σ => Panicked (erase σ)
  | OutOfFuel => OutOfFuel
  end.

(** ** The dependency graph read off the table map *)

(** The names table [a] references; nothing for a name without a table. *)
Definition refs (G : gmap string (option TableInfo)) (a : string) : gset string :=
  match tableAt G a with
  | Some info => referencedTables info
  | None => ∅
  end.

(** [edge G a b]: table [a] references table [b]. *)
Definition edge (G : gmap string (option TableInfo)) (a b : string) : Prop :=
  b ∈ refs G a.

(** No directed cycle, of any length. *)
Definition acyclic (G : gmap string (option TableInfo)) : Prop :=
  ∀ t, ¬ tc (edge G) t t.

(** Every key holds a table (no nil pointer is stored). *)
Definition allocated (G : gmap string (option TableInfo)) : Prop :=
  ∀ t, G !! t ≠ Some None.

(** Every referenced name is a key of the map. *)
Definition closed (G : gmap string (option TableInfo)) : Prop :=
  ∀ a b, edge G a b → b ∈ dom G.

(** A dependency graph in the sense of the data model: a mapping from
    table names to tables whose references all name tables of the map. *)
Definition well_formed (G : gmap string (option TableInfo)) : Prop :=
  allocated G ∧ closed G.

(** A name without a table that a run of [topoSortTables] can reach: a key
    that holds nil, or a referenced name that is not a key. *)
Definition dangling (G : gmap string (option TableInfo)) : Prop :=
  ∃ t, tableAt G t = None ∧ (t ∈ dom G ∨ ∃ a, edge G a t).

(** A name without a table that a call of [visit] at [cur] can reach. *)
Definition missing (G : gmap string (option TableInfo)) (cur : string) : Prop :=
  ∃ t, tableAt G t = None ∧ (t = cur ∨ ∃ a, edge G a t).

(** [chain G l]: every element of [l] but the last is referenced by the
    element that follows it ([l] lists a call path, innermost first). *)
Fixpoint chain (G : gmap string (option TableInfo)) (l : list string) : Prop :=
  match l with
  | x :: (y :: _) as l' => edge G y x ∧ chain G l'
  | _ => True
  end.

(** [l] lists every key, every listed name has a table, and every table
    comes after the tables it references. *)
Definition is_order (G : gmap string (option TableInfo)) (l : list string) : Prop :=
  (∀ x, x ∈ dom G → x ∈ l) ∧
  ∀ i a, l !! i = Some a →
    is_Some (tableAt G a) ∧ ∀ b, edge G a b → ∃ j, j < i ∧ l !! j = Some b.

(** An admissible iteration order yields every key once. *)
Definition fair (mapiter : nat → gset string → list string) : Prop :=
  ∀ n s, mapiter n s ≡ₚ elements s.

(** ** Relating the states of a run *)

(** One move along the life of a table, or none. *)
Definition color_step (c c' : NodeColor) : Prop :=
  c' = c ∨ (c = WHITE ∧ c' = GREY) ∨ (c = GREY ∧ c' = BLACK).

Definition color_steps (m m' : gmap string NodeColor) : Prop :=
  ∀ t, color_step (color m t) (color m' t).

(** [lineage c0 new c1]: the observations [new] (most recent first) were
    made on the way from the colours [c0] to the colours [c1]; the most
    recent one shows [c1], and each shows colours one move away, table by
    table, from what preceded it. *)
Fixpoint lineage (c0 : gmap string NodeColor) (new : list snapshot)
    (c1 : gmap string NodeColor) : Prop :=
  match new with
  | [] => c1 = c0
  | s :: older =>
      snap_colors s = c1 ∧ ∃ c, lineage c0 older c ∧ color_steps c c1
  end.

(** [σ'] comes after [σ]: same tables; a table that was not unvisited
    has kept its colour; the log has grown by a lineage. *)
Definition extends (σ σ' : state) : Prop :=
  tables σ' = tables σ ∧
  (∀ t, color (nodeColor σ) t ≠ WHITE →
        color (nodeColor σ') t = color (nodeColor σ) t) ∧
  ∃ new, log σ' = new ++ log σ ∧ lineage (nodeColor σ) new (nodeColor σ').

(** The keys that are still unvisited. *)
Definition whiteKeys (σ : state) : gset string :=
  filter (λ t, color (nodeColor σ) t = WHITE) (dom (tables σ)).

(** What the traversal maintains between calls, for the call path
    [ancestors] and the collector [col]: the in-progress tables are the
    ones on the call path, the done tables are the collected ones, no
    table is collected twice, and every collected table has a table entry
    and comes after all the tables it references. *)
Record Inv (G : gmap string (option TableInfo)) (ancestors col : list string)
    (c : gmap string NodeColor) : Prop := mkInv {
  inv_grey : ∀ t, color c t = GREY ↔ t ∈ ancestors;
  inv_black : ∀ t, color c t = BLACK ↔ t ∈ col;
  inv_nodup : NoDup col;
  inv_order : ∀ i a, col !! i = Some a →
    is_Some (tableAt G a) ∧
    ∀ b, edge G a b → ∃ j, j < i ∧ col !! j = Some b
}.

(** What an observation must show. At the entry of a call and at its
    return the in-progress tables are the ancestors of the call; while
    the call runs its loop they are its own table and its ancestors; when
    the table has just been marked done, every table it references is
    done. *)
Definition snapshot_ok (G : gmap string (option TableInfo)) (s : snapshot) : Prop :=
  let c := snap_colors s in
  match snap_point s with
  | AtEntry | AtReturn => ∀ t, color c t = GREY ↔ t ∈ snap_ancestors s
  | AtGrey | AtRange =>
      ∀ t, color c t = GREY ↔ t ∈ snap_table s :: snap_ancestors s
  | AtBlack =>
      (∀ t, color c t = GREY ↔ t ∈ snap_ancestors s) ∧
      color c (snap_table s) = BLACK ∧
      ∀ b, edge G (snap_table s) b → color c b = BLACK
  end.

(** Every observation made since [σ] shows what it must. *)
Definition observed (G : gmap string (option TableInfo)) (σ σ' : state) : Prop :=
  ∀ s, s ∈ log σ' → s ∈ log σ ∨ snapshot_ok G s.

(** The error names a table on a cycle, and the last thing observed is
    the entry of [visit] at that table while it is in progress. *)
Definition on_cycle (G : gmap string (option TableInfo)) (e : string)
    (σ : state) : Prop :=
  ∃ t, e = cycleError t ∧ tc (edge G) t t ∧
       color (nodeColor σ) t = GREY ∧
       ∃ anc, head (log σ) = Some (Snap AtEntry anc t (nodeColor σ)).

(** What [visit] guarantees for each way it can end. *)
Definition visit_post (G : gmap string (option TableInfo))
    (anc : list string) (cur : string) (col : list string) (σ : state)
    (o : outcome) : Prop :=
  match o with
  | Returned (col', None) σ' =>
      Inv G anc col' (nodeColor σ') ∧ color (nodeColor σ') cur = BLACK ∧
      col `prefix_of` col' ∧ observed G σ σ'
  | Returned (r, Some e) σ' => r = [] ∧ on_cycle G e σ' ∧ observed G σ σ'
  | Panicked σ' => missing G cur ∧ observed G σ σ'
  | OutOfFuel => True
  end.

(** The state in which the second loop of [topoSortTables] starts. *)
Definition started (tbls : gmap string (option TableInfo)) (σ : state) : Prop :=
  tables σ = tbls ∧ rng σ = 2 ∧ log σ = [] ∧
  ∀ t, color (nodeColor σ) t = WHITE.

(** What [topoSortTables] guarantees for each way it can end. *)
Definition topo_post (G : gmap string (option TableInfo)) (o : outcome) : Prop :=
  match o with
  | Returned (col, None) σ' =>
      Inv G [] col (nodeColor σ') ∧ (∀ x, x ∈ dom G → x ∈ col) ∧
      ∀ s, s ∈ log σ' → snapshot_ok G s
  | Returned (r, Some e) σ' =>
      r = [] ∧ on_cycle G e σ' ∧ ∀ s, s ∈ log σ' → snapshot_ok G s
  | Panicked σ' => dangling G ∧ ∀ s, s ∈ log σ' → snapshot_ok G s
  | OutOfFuel => False
  end.

(** *** Counting the encounters of a table *)

(** [s] is the entry of a call at [t] that finds [t] unvisited. *)
Definition white_entry (t : string) (s : snapshot) : Prop :=
  snap_point s = AtEntry ∧ snap_table s = t ∧
  color (snap_colors s) t = WHITE.

(** [s] is the start of a range over the references of [t]. *)
Definition range_of (t : string) (s : snapshot) : Prop :=
  snap_point s = AtRange ∧ snap_table s = t.

#[global] Instance white_entry_dec t s : Decision (white_entry t s).
Proof. unfold white_entry. apply _. Defined.

#[global] Instance range_of_dec t s : Decision (range_of t s).
Proof. unfold range_of. apply _. Defined.

Definition white_entries (l : list snapshot) (t : string) : nat :=
  length (filter (white_entry t) l).

Definition ranges (l : list snapshot) (t : string) : nat :=
  length (filter (range_of t) l).

(** Between calls: the references of a table have been ranged over no
    more often than the table was found unvisited, which happened at most
    once, and a table that was found unvisited is unvisited no more. *)
Definition CountInv (σ : state) : Prop :=
  ∀ t, ranges (log σ) t ≤ white_entries (log σ) t ∧
       white_entries (log σ) t ≤ 1 ∧
       (white_entries (log σ) t = 1 → color (nodeColor σ) t ≠ WHITE).

(** *** Postconditions of the loops *)

(** [I seen collector σ] holds between iterations, [seen] being the keys
    already handled; [E], [Pn] and [F] describe the three ways out. *)
Definition call_post (I : list string → list string → state → Prop)
    (E : string → state → Prop) (Pn : state → Prop) (F : Prop)
    (seen : list string) (x : string) (o : outcome) : Prop :=
  match o with
  | Returned (collector, None) σ => I (seen ++ [x]) collector σ
  | Returned (_, Some e) σ => E e σ
  | Panicked σ => Pn σ
  | OutOfFuel => F
  end.

Definition loop_post (I : list string → list string → state → Prop)
    (E : string → state → Prop) (Pn : state → Prop) (F : Prop)
    (seen : list string) (o : outcome) : Prop :=
  match o with
  | Returned (collector, None) σ => I seen collector σ
  | Returned (r, Some e) σ => r = [] ∧ E e σ
  | Panicked σ => Pn σ
  | OutOfFuel => F
  end.

(** *** Executable checks, for concrete graphs *)

#[local] Instance entry_ok_dec (G : gmap string (option TableInfo))
    (v : option TableInfo) :
  Decision (match v with
            | Some info => referencedTables info ⊆ dom G
            | None => False
            end).
Proof. destruct v; apply _. Defined.

(** Every key holds a table whose references are keys. *)
Definition well_formedb (G : gmap string (option TableInfo)) : bool :=
  bool_decide (map_Forall (λ _ v, match v with
                                  | Some info => referencedTables info ⊆ dom G
                                  | None => False
                                  end) G).

#[local] Instance position_ok_dec (G : gmap string (option TableInfo))
    (l : list string) (i : nat) :
  Decision (match l !! i with
            | Some a => is_Some (tableAt G a) ∧
                        refs G a ⊆ list_to_set (take i l)
            | None => True
            end).
Proof. destruct (l !! i); apply _. Defined.

(** [l] is a dependency-first order of all the keys. *)
Definition is_orderb (G : gmap string (option TableInfo)) (l : list string) : bool :=
  bool_decide (dom G ⊆ list_to_set l) &&
  bool_decide (Forall (λ i, match l !! i with
                            | Some a => is_Some (tableAt G a) ∧
                                        refs G a ⊆ list_to_set (take i l)
                            | None => True
                            end) (seq 0 (length l))).

(** ** Concrete iteration orders and graphs *)

(** The order in which stdpp enumerates a set, at every range statement:
    one admissible choice of iteration order. *)
Definition canonical_order : nat → gset string → list string :=
  λ _ s, elements s.

(** The reverse of it. *)
Definition reversed_order : nat → gset string → list string :=
  λ _ s, reverse (elements s).

(** A table entry with the given references. *)
Definition table (names : list string) : option TableInfo :=
  Some (mkTableInfo (list_to_set names)).

(** The scenario of the specification. *)
Definition shop : gmap string (option TableInfo) :=
  list_to_map [("customers", table []); ("products", table []);
               ("orders", table ["customers"]);
               ("line_items", table ["orders"; "products"])].

(** Two tables that reference each other. *)
Definition mutual : gmap string (option TableInfo) :=
  list_to_map [("a", table ["b"]); ("b", table ["a"])].

(** A state in which the table orders is in progress. *)
Definition orders_in_progress : state :=
  State shop {["orders" := GREY]} 0 [].

(** A cycle that is met after a table has been collected. *)
Definition late_cycle : gmap string (option TableInfo) :=
  list_to_map [("a", table []); ("b", table ["a"; "c"]); ("c", table ["b"])].

(** A table that references itself. *)
Definition selfref : gmap string (option TableInfo) :=
  list_to_map [("a", table ["a"])].

(** A reference to a name that is not a key. *)
Definition unknown_ref : gmap string (option TableInfo) :=
  list_to_map [("a", table ["b"])].

(** A key that holds the nil pointer. *)
Definition nil_entry : gmap string (option TableInfo) :=
  list_to_map [("a", None)].

(** Two tables that reference a shared table. *)
Definition diamond_graph : gmap string (option TableInfo) :=
  list_to_map [("a", table ["b"; "c"]); ("b", table ["d"]);
               ("c", table ["d"]); ("d", table [])].

(** A state in which the shared table is done. *)
Definition shared_done : state :=
  State diamond_graph {["d" := BLACK]} 0 [].

(** Two tables that reference a shared table, next to a table that
    references itself. *)
Definition diamond_and_cycle : gmap string (option TableInfo) :=
  list_to_map [("a", table ["c"]); ("b", table ["c"]); ("c", table []);
               ("x", table ["x"])].

(** A state in which products is done and the other tables of the shop
    are unvisited. *)
Definition orders_pending : state :=
  State shop {["products" := BLACK]} 0 [].

(** ** Further properties of the traversal: their vocabulary *)

(** [grown_by R col σ col' σ']: from [σ] to [σ'] the collector has grown
    at its end by the tables that went from [WHITE] to [BLACK], each
    once, and all of them satisfy [R]. *)
Definition grown_by (R : string → Prop) (col : list string) (σ : state)
    (col' : list string) (σ' : state) : Prop :=
  ∃ new, col' = col ++ new ∧ NoDup new ∧
    (∀ t, t ∈ new ↔
          color (nodeColor σ) t = WHITE ∧ color (nodeColor σ') t = BLACK) ∧
    (∀ t, t ∈ new → R t).

(** Every table that is done has had its references ranged over. *)
Definition Ranged (σ : state) : Prop :=
  ∀ t, color (nodeColor σ) t = BLACK → 1 ≤ ranges (log σ) t.

(** ** The query helpers of the worker tests

    [timestamp], [newQuery] and [runQuery] of the test file of package
    [worker]. A slice is [None] when it is nil and [Some] of its elements
    otherwise; a [uint64] is an [N] below [2^64]. *)

(** How a helper ends: it returns, it panics on an index or a slice bound
    out of range, or it calls [x.AssertTrue] with [false]. [x.AssertTrue]
    is not part of the sources; the model does not follow a run beyond a
    failed assertion. *)
Inductive go (A : Type) :=
| Ret (a : A)
| PanicIndex
| AssertFailure.
Arguments Ret {A} a.
Arguments PanicIndex {A}.
Arguments AssertFailure {A}.

(** The fields of [pb.List], [pb.SrcFunction] and [pb.Query] that the
    source assigns. The declarations are generated code outside the
    sources; every other field keeps its zero value. *)
Record pb_List := mk_pb_List { Uids : option (list N) }.

Record pb_SrcFunction := mk_pb_SrcFunction {
  Name : string;
  Args : option (list string)
}.

Record pb_Query := mk_pb_Query {
  UidList : pb_List;
  SrcFunc : option pb_SrcFunction;
  Attr : string;
  ReadTs : N;
  Langs : option (list string)
}.

(** [len(s)] *)
Definition len {A : Type} (s : option (list A)) : nat := length (default [] s).

(** [append(s, xs...)] for a nil [s]: appending nothing leaves it nil. *)
Definition append_to_nil (xs : list string) : option (list string) :=
  match xs with
  | [] => None
  | _ :: _ => Some xs
  end.

(** [timestamp], on the value of the package variable [ts] (no other
    goroutine touching it): [atomic.AddUint64(&ts, 1)] adds one modulo
    [2^64] and returns the new value. The result and the new [ts]. *)
Definition timestamp (ts : N) : N * N :=
  let ts' := ((ts + 1) mod 2 ^ 64)%N in (ts', ts').

(** [newQuery]. Beside the outcome, the value of [ts] afterwards. *)
Definition newQuery (attr : string) (uids : option (list N))
    (srcFunc : option (list string)) (ts : N) : go pb_Query * N :=
  if bool_decide (uids = None ∨ srcFunc = None) then
    let elems := default [] srcFunc in
    let srcFun : go (option pb_SrcFunction) :=
      match elems with
      | [] => Ret None
      | name :: _ =>
          if decide (2 ≤ length elems)
          then Ret (Some (mk_pb_SrcFunction name
                            (append_to_nil (drop 2 elems))))
          else PanicIndex
      end in
    match srcFun with
    | Ret srcFun =>
        let '(stamp, ts) := timestamp ts in
        let q := mk_pb_Query (mk_pb_List uids) srcFun attr stamp None in
        match elems with
        | [] => (Ret q, ts)
        | _ :: _ =>
            match elems !! 1 with
            | Some lang =>
                if decide (lang = "") then (Ret q, ts)
                else (Ret (mk_pb_Query (UidList q) (SrcFunc q) (Attr q)
                             (ReadTs q) (Some [lang])), ts)
            | None => (PanicIndex, ts)
            end
        end
    | PanicIndex => (PanicIndex, ts)
    | AssertFailure => (AssertFailure, ts)
    end
  else (AssertFailure, ts).

(** The [srcFunc] slice a query was built from, read back from the
    fields [newQuery] fills. *)
Definition srcFunc_of (q : pb_Query) : list string :=
  match SrcFunc q with
  | None => []
  | Some f =>
      Name f :: match Langs q with Some (lang :: _) => lang | _ => "" end
             :: default [] (Args f)
  end.

(** The line feed and the tabulator of the format strings. *)
Definition nl : string := String (Ascii.ascii_of_nat 10) "".
Definition tab : string := String (Ascii.ascii_of_nat 9) "".

Fixpoint tabs (n : nat) : string :=
  match n with
  | O => ""
  | S n => tab +:+ tabs n
  end.

(** [fmt.Sprintf("0x%x", uid)] *)
Definition hex (uid : N) : string := HexString.of_N uid.

Section RunQuery.

(** What the verb [%q] writes for a string ([strconv.Quote]). *)
Variable quote : string → string.

(** [runQuery], up to the query string it hands to [z.RetryQuery] and
    returns as its second result; the exchange with the server is outside
    the sources. *)
Definition runQuery (attr : string) (uids : option (list N))
    (srcFunc : option (list string)) : go string :=
  if bool_decide (uids = None ∨ srcFunc = None) then
    match uids with
    | Some ids =>
        let uidv := map hex ids in
        Ret (nl +:+ tabs 3 +:+ "{" +:+
             nl +:+ tabs 4 +:+ "q(func: uid(" +:+ String.concat "," uidv
                +:+ ")) {" +:+
             nl +:+ tabs 5 +:+ attr +:+ " { uid }" +:+
             nl +:+ tabs 4 +:+ "}" +:+
             nl +:+ tabs 3 +:+ "}")
    | None =>
        let elems := default [] srcFunc in
        match elems !! 1 with
        | None => PanicIndex
        | Some lang =>
            let langs := if decide (lang = "") then "" else "@" +:+ lang in
            let args := String.concat " " (drop 2 elems) in
            match elems !! 0 with
            | None => PanicIndex
            | Some name =>
                Ret (nl +:+ tabs 3 +:+ "{" +:+
                     nl +:+ tabs 4 +:+ "q(func: " +:+ name +:+ "(" +:+ attr
                        +:+ langs +:+ ", " +:+ quote args +:+ ")) {" +:+
                     nl +:+ tabs 5 +:+ "uid" +:+
                     nl +:+ tabs 4 +:+ "}" +:+
                     nl +:+ tabs 3 +:+ "}")
            end
        end
    end
  else AssertFailure.

End RunQuery.

(** ** Elementary facts *)

Lemma color_insert m k c t :
  color (<[k := c]> m) t = if decide (k = t) then c else color m t.
Proof.
  unfold color. rewrite lookup_insert. by destruct (decide (k = t)).
Qed.

Lemma color_empty t : color ∅ t = WHITE.
Proof. unfold color. by rewrite lookup_empty. Qed.

Lemma tableAt_Some G t info :
  tableAt G t = Some info ↔ G !! t = Some (Some info).
Proof.
  unfold tableAt. destruct (G !! t) as [[?|]|]; naive_solver.
Qed.

Lemma tableAt_dom G t info : tableAt G t = Some info → t ∈ dom G.
Proof. rewrite tableAt_Some, elem_of_dom. eauto. Qed.

Lemma edge_dom G a b : edge G a b → a ∈ dom G.
Proof.
  unfold edge, refs. destruct (tableAt G a) eqn:E; [|set_solver].
  intros _. by eapply tableAt_dom.
Qed.

Lemma well_formed_tableAt G t :
  well_formed G → t ∈ dom G → is_Some (tableAt G t).
Proof.
  intros [Ha _] [[info|] Ht]%elem_of_dom.
  - exists info. by apply tableAt_Some.
  - by destruct (Ha t).
Qed.

Lemma color_step_refl c : color_step c c.
Proof. by left. Qed.

Lemma color_steps_refl m : color_steps m m.
Proof. intros t. apply color_step_refl. Qed.

Lemma color_steps_insert m k c :
  color_step (color m k) c → color_steps m (<[k := c]> m).
Proof.
  intros H t. rewrite color_insert. destruct (decide (k = t)) as [<-|];
    [done|apply color_step_refl].
Qed.

Lemma lineage_app c0 n1 c1 n2 c2 :
  lineage c0 n1 c1 → lineage c1 n2 c2 → lineage c0 (n2 ++ n1) c2.
Proof.
  intros H1. revert c2. induction n2 as [|s n2 IH]; intros c2; simpl.
  - by intros ->.
  - intros [Hs (c & Hl & Hc)]. split; [done|]. exists c. split; [|done].
    by apply IH.
Qed.

(** In a lineage two neighbouring observations are one move apart. *)
Lemma lineage_lookup c0 l : ∀ c1 i s s',
  lineage c0 l c1 → l !! S i = Some s → l !! i = Some s' →
  color_steps (snap_colors s) (snap_colors s').
Proof.
  induction l as [|x l IH]; intros c1 i s s' Hl Hs Hs'; [done|].
  destruct Hl as [Hx (c & Hl & Hc)]. destruct i as [|i]; simpl in *.
  - injection Hs' as ->. destruct l as [|y l]; [done|].
    injection Hs as ->. destruct Hl as [<- _]. by rewrite Hx.
  - by eapply IH.
Qed.

(** The oldest observation is one move away from the start. *)
Lemma lineage_last c0 l : ∀ c1 s,
  lineage c0 l c1 → last l = Some s → color_steps c0 (snap_colors s).
Proof.
  induction l as [|x l IH]; intros c1 s Hl Hs; [done|].
  destruct Hl as [Hx (c & Hl & Hc)]. destruct l as [|y l].
  - injection Hs as <-. simpl in Hl. subst c. by rewrite Hx.
  - by eapply IH.
Qed.

Lemma extends_refl σ : extends σ σ.
Proof. split_and!; [done..|]. by exists []. Qed.

Lemma extends_trans σ1 σ2 σ3 : extends σ1 σ2 → extends σ2 σ3 → extends σ1 σ3.
Proof.
  intros (Ht & Hc & n1 & Hl1 & Hn1) (Ht' & Hc' & n2 & Hl2 & Hn2).
  split_and!.
  - congruence.
  - intros t Hw. rewrite Hc', Hc; [done..|]. by rewrite Hc.
  - exists (n2 ++ n1). split; [by rewrite Hl2, Hl1, app_assoc|].
    by eapply lineage_app.
Qed.

Lemma extends_observe p anc t σ : extends σ (observe p anc t σ).
Proof.
  split_and!; [done..|]. exists [Snap p anc t (nodeColor σ)].
  split; [done|]. split; [done|]. exists (nodeColor σ).
  split; [done|apply color_steps_refl].
Qed.

Lemma extends_range mapiter s σ : extends σ (range_keys mapiter s σ).2.
Proof. split_and!; [done..|]. by exists []. Qed.

(** Marking an unvisited table and observing the result. *)
Lemma extends_grey p anc t k σ :
  color (nodeColor σ) k = WHITE →
  extends σ (observe p anc t (set_nodeColor k GREY σ)).
Proof.
  intros Hw. split_and!; [done| |].
  - intros x Hx. simpl. rewrite color_insert.
    destruct (decide (k = x)) as [<-|]; [done|done].
  - eexists [_]. split; [done|]. split; [done|]. exists (nodeColor σ).
    split; [done|]. apply color_steps_insert. rewrite Hw. right. by left.
Qed.

(** Marking done the table of the call that started in [σ]. *)
Lemma extends_black p anc t k σ τ :
  color (nodeColor σ) k = WHITE → color (nodeColor τ) k = GREY →
  extends σ τ → extends σ (observe p anc t (set_nodeColor k BLACK τ)).
Proof.
  intros Hw Hg (Ht & Hc & n & Hl & Hn). split_and!; [done| |].
  - intros x Hx. simpl. rewrite color_insert.
    destruct (decide (k = x)) as [<-|]; [done|by apply Hc].
  - exists (Snap p anc t (<[k := BLACK]> (nodeColor τ)) :: n).
    split; [simpl; by rewrite Hl|]. split; [done|]. exists (nodeColor τ).
    split; [done|]. apply color_steps_insert. rewrite Hg. right. by right.
Qed.

Lemma extends_rank σ σ' t :
  extends σ σ' → color (nodeColor σ') t = WHITE → color (nodeColor σ) t = WHITE.
Proof.
  intros (_ & Hc & _) Hw. destruct (color (nodeColor σ) t) eqn:E; [done|..];
    rewrite Hc in Hw; congruence.
Qed.

Lemma whiteKeys_mono σ σ' : extends σ σ' → whiteKeys σ' ⊆ whiteKeys σ.
Proof.
  intros Hext t. unfold whiteKeys. rewrite !elem_of_filter.
  destruct Hext as (Ht & ?). rewrite Ht. intros [Hw ?]. split; [|done].
  eapply extends_rank; [|done]. by split.
Qed.

Lemma whiteKeys_dom σ : size (whiteKeys σ) ≤ size (dom (tables σ)).
Proof.
  apply subseteq_size. intros y [_ ?]%elem_of_filter. done.
Qed.

Lemma whiteKeys_grey σ cur τ :
  tables τ = tables σ → nodeColor τ = <[cur := GREY]> (nodeColor σ) →
  cur ∈ dom (tables σ) → color (nodeColor σ) cur = WHITE →
  size (whiteKeys τ) < size (whiteKeys σ).
Proof.
  intros Ht Hn Hd Hw. apply subset_size. apply strict_spec_alt. split.
  - intros t. unfold whiteKeys. rewrite !elem_of_filter, Ht, Hn, color_insert.
    destruct (decide (cur = t)); naive_solver.
  - intros Heq. assert (Hin : cur ∈ whiteKeys σ).
    { apply elem_of_filter. done. }
    rewrite <- Heq in Hin. apply elem_of_filter in Hin as [Hin _].
    rewrite Hn, color_insert in Hin. by rewrite decide_True in Hin.
Qed.

(** ** A rule for the loops *)

Lemma visit_each_rule rec I E Pn F keys : ∀ seen collector σ,
  I seen collector σ →
  (∀ seen' x collector σ, x ∈ keys → I seen' collector σ →
     call_post I E Pn F seen' x (rec x collector σ)) →
  loop_post I E Pn F (seen ++ keys) (visit_each rec keys collector σ).
Proof.
  induction keys as [|x keys IH]; intros seen collector σ HI Hstep; simpl.
  - by rewrite app_nil_r.
  - pose proof (Hstep seen x collector σ ltac:(left) HI) as Hx.
    destruct (rec x collector σ) as [[c [e|]] σ'| σ' |]; simpl in *; try done.
    rewrite (cons_middle x seen keys), app_assoc.
    apply IH; [done|]. intros ???? Hin. apply Hstep. by right.
Qed.

(** A loop whose calls extend the state extends the state. *)
Lemma visit_each_extends rec keys :
  (∀ x c τ τ', outcome_state (rec x c τ) = Some τ' → extends τ τ') →
  ∀ col σ σ', outcome_state (visit_each rec keys col σ) = Some σ' →
              extends σ σ'.
Proof.
  intros Hrec. induction keys as [|x keys IH]; intros col σ σ'; simpl.
  - intros [= <-]. apply extends_refl.
  - pose proof (Hrec x col σ) as Hx.
    destruct (rec x col σ) as [[c [e|]] τ|τ|]; simpl in *; [..|done].
    + intros [= <-]. by apply Hx.
    + intros Hk. eapply extends_trans; [by apply Hx|by eapply IH].
    + intros [= <-]. by apply Hx.
Qed.

(** ** Frame and monotonicity: every state reached extends the start *)

Section Facts.
Context (mapiter : nat → gset string → list string).

Lemma visit_S fuel anc cur col σ :
  visit mapiter (S fuel) anc cur col σ =
    let σ0 := observe AtEntry anc cur σ in
    match color (nodeColor σ) cur with
    | WHITE =>
        let σ1 := observe AtGrey anc cur (set_nodeColor cur GREY σ0) in
        match tableAt (tables σ) cur with
        | None => Panicked σ1
        | Some info =>
            let σ2 := observe AtRange anc cur
                        (range_keys mapiter (referencedTables info) σ1).2 in
            match visit_each (visit mapiter fuel (cur :: anc))
                    (mapiter (rng σ) (referencedTables info)) col σ2 with
            | Returned (col', None) σ3 =>
                Returned (col' ++ [cur], None)
                  (observe AtReturn anc cur
                     (observe AtBlack anc cur (set_nodeColor cur BLACK σ3)))
            | other => other
            end
        end
    | GREY => Returned ([], Some (cycleError cur)) σ0
    | BLACK => Returned (col, None) (observe AtReturn anc cur σ0)
    end.
Proof. reflexivity. Qed.

Lemma visit_extends fuel : ∀ anc cur col σ σ',
  outcome_state (visit mapiter fuel anc cur col σ) = Some σ' → extends σ σ'.
Proof.
  induction fuel as [|fuel IH]; intros anc cur col σ σ'; [done|].
  rewrite visit_S. cbv zeta.
  set (σ0 := observe AtEntry anc cur σ).
  assert (H0 : extends σ σ0) by apply extends_observe.
  destruct (color (nodeColor σ) cur) eqn:Hc.
  - set (σ1 := observe AtGrey anc cur (set_nodeColor cur GREY σ0)).
    assert (H1 : extends σ σ1).
    { eapply extends_trans; [done|]. by apply extends_grey. }
    destruct (tableAt (tables σ) cur) as [info|].
    2:{ simpl. by intros [= <-]. }
    set (σ2 := observe AtRange anc cur _).
    assert (H2 : extends σ1 σ2).
    { eapply extends_trans; [apply (extends_range mapiter)|].
      apply extends_observe. }
    pose proof (visit_each_extends (visit mapiter fuel (cur :: anc))
      (mapiter (rng σ) (referencedTables info))
      (IH (cur :: anc)) col σ2) as Hloop.
    destruct (visit_each _ _ _ _) as [[c' [e|]] σ3|σ3|]; simpl in *.
    + intros [= <-]. eauto using extends_trans.
    + intros [= <-]. specialize (Hloop σ3 eq_refl).
      eapply extends_trans; [|apply extends_observe].
      apply extends_black; [done| |eauto using extends_trans].
      assert (Hg : color (nodeColor σ1) cur = GREY).
      { simpl. rewrite color_insert. by rewrite decide_True. }
      destruct H2 as (_ & H2 & _). destruct Hloop as (_ & Hl & _).
      rewrite Hl, H2; rewrite ?H2; congruence.
    + intros [= <-]. eauto using extends_trans.
    + done.
  - simpl. by intros [= <-].
  - simpl. intros [= <-]. eapply extends_trans; [done|apply extends_observe].
Qed.

(** ** Termination: the recursion is no deeper than the unvisited keys *)

Lemma visit_terminates fuel : ∀ anc cur col σ,
  size (whiteKeys σ) < fuel → visit mapiter fuel anc cur col σ ≠ OutOfFuel.
Proof.
  induction fuel as [|fuel IH]; intros anc cur col σ Hfuel; [lia|].
  rewrite visit_S. cbv zeta.
  destruct (color _ cur) eqn:Hc; [|done..].
  destruct (tableAt _ cur) as [info|] eqn:Ht; [|done].
  set (σ2 := observe AtRange anc cur _).
  assert (Hlt : size (whiteKeys σ2) < size (whiteKeys σ)).
  { apply (whiteKeys_grey σ cur); [done..| |done]. by eapply tableAt_dom. }
  pose proof (visit_each_rule (visit mapiter fuel (cur :: anc))
    (λ _ _ τ, extends σ2 τ) (λ _ _, True) (λ _, True) False
    (mapiter (rng σ) (referencedTables info)) [] col σ2
    (extends_refl _)) as Hloop.
  lapply Hloop; clear Hloop.
  - intros Hloop. simpl in Hloop.
    by destruct (visit_each _ _ _ _) as [[c' [e|]] σ3|σ3|].
  - intros seen x c τ _ Hτ. unfold call_post.
    pose proof (visit_extends fuel (cur :: anc) x c τ) as Hext.
    pose proof (IH (cur :: anc) x c τ) as IHx.
    destruct (visit mapiter fuel (cur :: anc) x c τ) as [[c' [e|]] τ'|τ'|];
      simpl in *; try done.
    + eapply extends_trans; [done|by apply Hext].
    + apply IHx; [|done]. apply whiteKeys_mono, subseteq_size in Hτ. lia.
Qed.

End Facts.

(** ** The ghost state does not steer the run *)

Lemma visit_each_erase rec rec' keys :
  (∀ x c τ τ', erase τ = erase τ' →
     erase_outcome (rec x c τ) = erase_outcome (rec' x c τ')) →
  ∀ col σ σ', erase σ = erase σ' →
    erase_outcome (visit_each rec keys col σ)
    = erase_outcome (visit_each rec' keys col σ').
Proof.
  intros Hrec. induction keys as [|x keys IH]; intros col σ σ' Hσ; simpl.
  - by rewrite Hσ.
  - pose proof (Hrec x col σ σ' Hσ) as Hx.
    destruct (rec x col σ) as [[c [e|]] τ|τ|],
             (rec' x col σ') as [[c' [e'|]] τ'|τ'|];
      simpl in Hx; simplify_eq; simpl; try done.
    + unfold erase. congruence.
    + apply IH. unfold erase. congruence.
    + unfold erase. congruence.
Qed.

(** The results, the colours and the tables of a call depend neither on
    the log nor on the recorded ancestors. *)
Lemma visit_erase mapiter fuel : ∀ anc anc' cur col σ σ',
  erase σ = erase σ' →
  erase_outcome (visit mapiter fuel anc cur col σ)
  = erase_outcome (visit mapiter fuel anc' cur col σ').
Proof.
  induction fuel as [|fuel IH]; intros anc anc' cur col σ σ' Hσ; [done|].
  rewrite !visit_S. cbv zeta.
  injection Hσ as Ht Hn Hr. rewrite <- Ht, <- Hn, <- Hr.
  destruct (color (nodeColor σ) cur).
  - destruct (tableAt (tables σ) cur) as [info|].
    2:{ simpl. unfold erase. simpl. congruence. }
    match goal with
    | |- erase_outcome (match visit_each ?r ?k ?c ?s1 with _ => _ end)
         = erase_outcome (match visit_each ?r' _ _ ?s2 with _ => _ end) =>
        pose proof (visit_each_erase r r' k (IH _ _) c s1 s2) as Hloop
    end.
    lapply Hloop; [clear Hloop; intros Hloop|unfold erase; simpl; congruence].
    destruct (visit_each _ _ _ _) as [[c [e|]] τ|τ|],
             (visit_each _ _ _ _) as [[c' [e'|]] τ'|τ'|];
      simpl in Hloop; simplify_eq; simpl; try done.
    + unfold erase. congruence.
    + unfold erase. simpl. congruence.
    + unfold erase. congruence.
  - simpl. unfold erase. simpl. congruence.
  - simpl. unfold erase. simpl. congruence.
Qed.

(** ** Paths *)

Lemma chain_tc G l : ∀ x z, chain G (x :: l) → z ∈ l → tc (edge G) z x.
Proof.
  induction l as [|y l IH]; intros x z Hch Hz; [by apply elem_of_nil in Hz|].
  destruct Hch as [Hyx Hch]. apply elem_of_cons in Hz as [->|Hz].
  - by apply tc_once.
  - eapply tc_r; [|done]. by apply IH.
Qed.

(** ** What is observed *)

Lemma observed_refl G σ : observed G σ σ.
Proof. intros s ?. by left. Qed.

Lemma observed_trans G σ1 σ2 σ3 :
  observed G σ1 σ2 → observed G σ2 σ3 → observed G σ1 σ3.
Proof.
  intros H12 H23 s Hs. destruct (H23 s Hs) as [?|?]; [|by right].
  by apply H12.
Qed.

Lemma observed_observe G σ τ p anc cur :
  observed G σ τ → snapshot_ok G (Snap p anc cur (nodeColor τ)) →
  observed G σ (observe p anc cur τ).
Proof.
  intros Hobs Hok s [->|Hs]%elem_of_cons; [by right|by apply Hobs].
Qed.

Lemma observed_all G σ σ' :
  log σ = [] → observed G σ σ' → ∀ s, s ∈ log σ' → snapshot_ok G s.
Proof.
  intros Hnil Hobs s Hs. destruct (Hobs s Hs) as [Hin|?]; [|done].
  rewrite Hnil in Hin. by apply elem_of_nil in Hin.
Qed.

(** ** The traversal invariant *)

Lemma Inv_grey G anc col c cur :
  Inv G anc col c → color c cur = WHITE →
  Inv G (cur :: anc) col (<[cur := GREY]> c).
Proof.
  intros [Hg Hb Hn Ho] Hw. split; [| |done..]; intros t;
    rewrite color_insert; destruct (decide (cur = t)) as [<-|Hne].
  - split; [left|done].
  - rewrite Hg. set_solver.
  - split; [done|]. rewrite <- Hb. congruence.
  - apply Hb.
Qed.

Lemma Inv_black G anc col c cur :
  Inv G (cur :: anc) col c → cur ∉ anc →
  is_Some (tableAt G cur) → (∀ b, edge G cur b → b ∈ col) →
  Inv G anc (col ++ [cur]) (<[cur := BLACK]> c).
Proof.
  intros [Hg Hb Hn Ho] Hanc Hcur Hrefs.
  assert (Hnb : cur ∉ col).
  { rewrite <- Hb. assert (color c cur = GREY) as ->; [|done].
    apply Hg. by left. }
  split.
  - intros t. rewrite color_insert. destruct (decide (cur = t)) as [<-|Hne].
    + naive_solver.
    + rewrite Hg. set_solver.
  - intros t. rewrite color_insert. destruct (decide (cur = t)) as [<-|Hne].
    + set_solver.
    + rewrite Hb. set_solver.
  - apply NoDup_app. split_and!; [done| |apply NoDup_singleton].
    intros x Hx ->%list_elem_of_singleton. done.
  - intros i a Hi. destruct (decide (i < length col)) as [Hlt|Hge].
    + rewrite lookup_app_l in Hi by done.
      destruct (Ho i a Hi) as [Ha Hord]. split; [done|].
      intros b Hb'. destruct (Hord b Hb') as (j & Hj & Hjb).
      exists j. split; [done|]. rewrite lookup_app_l by lia. done.
    + rewrite lookup_app_r in Hi by lia.
      apply list_lookup_singleton_Some in Hi as [Hi <-].
      split; [done|]. intros b Hb'.
      apply Hrefs, list_elem_of_lookup in Hb' as [j Hj].
      exists j. pose proof (lookup_lt_Some _ _ _ Hj).
      split; [lia|]. by rewrite lookup_app_l.
Qed.

Lemma Inv_start G c : (∀ t, color c t = WHITE) → Inv G [] [] c.
Proof.
  intros Hw. split.
  - intros t. rewrite Hw. split; [done|by intros ?%elem_of_nil].
  - intros t. rewrite Hw. split; [done|by intros ?%elem_of_nil].
  - constructor.
  - by intros i a ?.
Qed.

Section Correct.
Context (mapiter : nat → gset string → list string) (Hfair : fair mapiter).

Lemma elem_of_mapiter n s x : x ∈ mapiter n s ↔ x ∈ s.
Proof. by rewrite (Hfair n s), elem_of_elements. Qed.

Lemma visit_spec fuel : ∀ anc cur col σ,
  Inv (tables σ) anc col (nodeColor σ) → chain (tables σ) (cur :: anc) →
  visit_post (tables σ) anc cur col σ (visit mapiter fuel anc cur col σ).
Proof.
  induction fuel as [|fuel IH]; intros anc cur col σ HI Hch; [done|].
  rewrite visit_S. cbv zeta. set (G := tables σ) in *.
  set (σ0 := observe AtEntry anc cur σ).
  assert (Hobs0 : observed G σ σ0).
  { apply observed_observe; [apply observed_refl|].
    exact (inv_grey _ _ _ _ HI). }
  destruct (color (nodeColor σ) cur) eqn:Hc.
  - set (σ1 := observe AtGrey anc cur (set_nodeColor cur GREY σ0)).
    pose proof (Inv_grey _ _ _ _ cur HI Hc) as HI1.
    assert (Hobs1 : observed G σ σ1).
    { apply observed_observe; [done|]. exact (inv_grey _ _ _ _ HI1). }
    destruct (tableAt G cur) as [info|] eqn:Ht.
    2:{ split; [|done]. exists cur. by split; [|left]. }
    set (σ2 := observe AtRange anc cur _).
    assert (Hobs2 : observed G σ σ2).
    { apply observed_observe; [done|]. exact (inv_grey _ _ _ _ HI1). }
    assert (Hrefs : refs G cur = referencedTables info).
    { unfold refs. by rewrite Ht. }
    assert (Hnanc : cur ∉ anc).
    { rewrite <- (inv_grey _ _ _ _ HI). congruence. }
    pose proof (visit_each_rule (visit mapiter fuel (cur :: anc))
      (λ seen c τ, tables τ = G ∧ Inv G (cur :: anc) c (nodeColor τ) ∧
                   col `prefix_of` c ∧ (∀ x, x ∈ seen → x ∈ c) ∧
                   observed G σ τ)
      (λ e τ, on_cycle G e τ ∧ observed G σ τ)
      (λ τ, (∃ x, edge G cur x ∧ missing G x) ∧ observed G σ τ) True
      (mapiter (rng σ) (referencedTables info)) [] col σ2) as Hloop.
    lapply Hloop; clear Hloop.
    2:{ split_and!; [done..| |done]. by intros x ?%elem_of_nil. }
    intros Hloop. lapply Hloop; clear Hloop.
    2:{ intros seen x c τ Hx (Hτ & HIτ & Hpre & Hseen & Hobs).
        apply elem_of_mapiter in Hx. rewrite <- Hrefs in Hx.
        pose proof (IH (cur :: anc) x c τ) as IHx. rewrite Hτ in IHx.
        specialize (IHx HIτ (conj Hx Hch)).
        pose proof (visit_extends mapiter fuel (cur :: anc) x c τ) as Hext.
        unfold call_post.
        destruct (visit mapiter fuel (cur :: anc) x c τ)
          as [[c' [e|]] τ'|τ'|]; simpl in IHx |- *; [| | |done].
        - destruct IHx as (_ & ? & ?). eauto using observed_trans.
        - destruct IHx as (HI' & Hbl & Hpre' & Hobs').
          split_and!.
          + destruct (Hext τ' eq_refl) as [-> _]. done.
          + done.
          + by etrans.
          + intros y [Hy| ->%list_elem_of_singleton]%elem_of_app.
            * eapply elem_of_prefix; [|done]. by apply Hseen.
            * by apply (inv_black _ _ _ _ HI').
          + eauto using observed_trans.
        - destruct IHx as [? ?]. eauto using observed_trans. }
    intros Hloop. simpl in Hloop.
    destruct (visit_each _ _ _ _) as [[c' [e|]] σ3|σ3|]; simpl.
    + destruct Hloop as (? & ? & ?). done.
    + destruct Hloop as (Hσ3 & HI3 & Hpre & Hseen & Hobs3).
      assert (Hdone : ∀ b, edge G cur b → b ∈ c').
      { intros b Hb. apply Hseen, elem_of_mapiter. by rewrite <- Hrefs. }
      assert (HI4 : Inv G anc (c' ++ [cur]) (<[cur := BLACK]> (nodeColor σ3))).
      { apply Inv_black; [done..|by rewrite Ht|done]. }
      assert (Hbl : color (<[cur := BLACK]> (nodeColor σ3)) cur = BLACK).
      { rewrite color_insert. by rewrite decide_True. }
      split_and!; [done|done|by apply prefix_app_r|].
      apply observed_observe;
        [apply observed_observe; [done|]|exact (inv_grey _ _ _ _ HI4)].
      split_and!; [exact (inv_grey _ _ _ _ HI4)|done|].
      intros b Hb. apply (inv_black _ _ _ _ HI4), elem_of_app. left. eauto.
    + destruct Hloop as [(x & Hx & t & Ht' & Hor) Hobs]. split; [|done].
      exists t. split; [done|right]. destruct Hor as [->|Ha]; eauto.
    + done.
  - split_and!; [done| |done]. exists cur. split_and!; [done| |done|by exists anc].
    eapply chain_tc; [done|]. by apply (inv_grey _ _ _ _ HI).
  - split_and!; [done..|]. apply observed_observe; [done|].
    exact (inv_grey _ _ _ _ HI).
Qed.

(** *** The run of [topoSortTables] *)

Lemma init_loop keys : ∀ σ,
  (∀ t, color (nodeColor σ) t = WHITE) →
  let σ' := foldl (λ σ table, set_nodeColor table WHITE σ) σ keys in
  tables σ' = tables σ ∧ rng σ' = rng σ ∧ log σ' = log σ ∧
  ∀ t, color (nodeColor σ') t = WHITE.
Proof.
  induction keys as [|k keys IH]; intros σ Hw; simpl; [done|].
  destruct (IH (set_nodeColor k WHITE σ)) as (Ht & Hr & Hl & Hc); [|done].
  intros t. simpl. rewrite color_insert. by destruct (decide (k = t)).
Qed.

Lemma topoSortTables_start fuel tbls :
  ∃ σ, started tbls σ ∧
       topoSortTables mapiter fuel tbls =
         visit_each (visit mapiter fuel []) (mapiter 1 (dom tbls)) [] σ.
Proof.
  unfold topoSortTables. simpl.
  destruct (init_loop (mapiter 0 (dom tbls)) (State tbls ∅ 1 []))
    as (Ht & Hr & Hl & Hc); [apply color_empty|].
  simpl in *. rewrite Ht, Hr. eexists. split; [|done].
  by split_and!.
Qed.

Lemma topoSortTables_spec fuel G :
  size (dom G) < fuel → topo_post G (topoSortTables mapiter fuel G).
Proof.
  intros Hfuel.
  destruct (topoSortTables_start fuel G) as (σ & (Ht & _ & Hnil & Hw) & ->).
  pose proof (visit_each_rule (visit mapiter fuel [])
    (λ seen c τ, tables τ = G ∧ Inv G [] c (nodeColor τ) ∧
                 (∀ x, x ∈ seen → x ∈ c) ∧ observed G σ τ)
    (λ e τ, on_cycle G e τ ∧ observed G σ τ)
    (λ τ, dangling G ∧ observed G σ τ) False
    (mapiter 1 (dom G)) [] [] σ) as Hloop.
  lapply Hloop; clear Hloop.
  2:{ split_and!; [done|by apply Inv_start| |apply observed_refl].
      by intros x ?%elem_of_nil. }
  intros Hloop. lapply Hloop; clear Hloop.
  - intros Hloop. simpl in Hloop. unfold topo_post.
    destruct (visit_each _ _ _ _) as [[c' [e|]] σ3|σ3|]; [| | |done].
    + destruct Hloop as (? & ? & ?). eauto using observed_all.
    + destruct Hloop as (_ & HI & Hseen & Hobs).
      split_and!; [done| |eauto using observed_all].
      intros x Hx. by apply Hseen, elem_of_mapiter.
    + destruct Hloop as [? ?]. eauto using observed_all.
  - intros seen x c τ Hx (Hτ & HIτ & Hseen & Hobs). apply elem_of_mapiter in Hx.
    pose proof (visit_spec fuel [] x c τ) as Hv. rewrite Hτ in Hv.
    specialize (Hv HIτ I).
    pose proof (visit_extends mapiter fuel [] x c τ) as Hext.
    pose proof (visit_terminates mapiter fuel [] x c τ) as Hterm.
    unfold call_post.
    destruct (visit mapiter fuel [] x c τ) as [[c' [e|]] τ'|τ'|];
      simpl in Hv |- *.
    + destruct Hv as (_ & ? & ?). eauto using observed_trans.
    + destruct Hv as (HI' & Hbl & Hpre' & Hobs').
      split_and!; [|done| |eauto using observed_trans].
      * destruct (Hext τ' eq_refl) as [-> _]. done.
      * intros y [Hy| ->%list_elem_of_singleton]%elem_of_app.
        -- eapply elem_of_prefix; [|done]. by apply Hseen.
        -- by apply (inv_black _ _ _ _ HI').
    + destruct Hv as [(t & Ht' & Hor) Hobs']. split; [|eauto using observed_trans].
      exists t. split; [done|]. destruct Hor as [->|Ha]; eauto.
    + apply Hterm; [|done]. eapply Nat.le_lt_trans; [|done].
      rewrite <- Hτ. apply whiteKeys_dom.
Qed.

End Correct.

(** ** No panic on a dependency graph *)

Lemma visit_no_panic mapiter fuel : fair mapiter → ∀ anc cur col σ σ',
  well_formed (tables σ) → cur ∈ dom (tables σ) →
  visit mapiter fuel anc cur col σ ≠ Panicked σ'.
Proof.
  intros Hfair. induction fuel as [|fuel IH];
    intros anc cur col σ σ' Hwf Hcur; [done|].
  rewrite visit_S. cbv zeta. set (G := tables σ) in *.
  destruct (color (nodeColor σ) cur); [|done..].
  destruct (well_formed_tableAt G cur Hwf Hcur) as [info Hinfo].
  rewrite Hinfo.
  set (σ2 := observe AtRange anc cur _).
  pose proof (visit_each_rule (visit mapiter fuel (cur :: anc))
    (λ _ _ τ, tables τ = G) (λ _ _, True) (λ _, False) True
    (mapiter (rng σ) (referencedTables info)) [] col σ2 eq_refl) as Hloop.
  lapply Hloop; clear Hloop.
  - intros Hloop. simpl in Hloop.
    by destruct (visit_each _ _ _ _) as [[c' [e|]] σ3|σ3|].
  - intros seen x c τ Hx Hτ. unfold call_post.
    pose proof (visit_extends mapiter fuel (cur :: anc) x c τ) as Hext.
    pose proof (IH (cur :: anc) x c τ) as IHx.
    destruct (visit mapiter fuel (cur :: anc) x c τ) as [[c' [e|]] τ'|τ'|];
      simpl in *; try done.
    + destruct (Hext τ' eq_refl) as [-> _]. done.
    + apply (IHx τ'); rewrite ?Hτ; [done| |done].
      apply (proj2 Hwf cur). unfold edge, refs. rewrite Hinfo.
      by rewrite (Hfair _ _), elem_of_elements in Hx.
Qed.

(** ** Counting encounters *)

Lemma white_entries_other p anc cur c l t :
  p ≠ AtEntry → white_entries (Snap p anc cur c :: l) t = white_entries l t.
Proof.
  intros Hp. unfold white_entries. rewrite filter_cons.
  destruct (decide _) as [[? _]|]; done.
Qed.

Lemma white_entries_entry anc cur c l t :
  white_entries (Snap AtEntry anc cur c :: l) t
  = (if decide (cur = t ∧ color c t = WHITE) then 1 else 0)
    + white_entries l t.
Proof.
  unfold white_entries. rewrite filter_cons.
  destruct (decide (white_entry _ _)) as [(_ & ? & ?)|Hn]; simpl in *.
  - by rewrite decide_True.
  - rewrite decide_False; [done|]. intros [? ?]. by apply Hn.
Qed.

Lemma ranges_other p anc cur c l t :
  p ≠ AtRange → ranges (Snap p anc cur c :: l) t = ranges l t.
Proof.
  intros Hp. unfold ranges. rewrite filter_cons.
  destruct (decide _) as [[? _]|]; done.
Qed.

Lemma ranges_range anc cur c l t :
  ranges (Snap AtRange anc cur c :: l) t
  = (if decide (cur = t) then 1 else 0) + ranges l t.
Proof.
  unfold ranges. rewrite filter_cons.
  destruct (decide (range_of _ _)) as [[_ ?]|Hn]; simpl in *.
  - by rewrite decide_True.
  - rewrite decide_False; [done|]. intros ?. by apply Hn.
Qed.

Lemma CountInv_observe p anc cur σ :
  (p = AtEntry → color (nodeColor σ) cur ≠ WHITE) → p ≠ AtRange →
  CountInv σ → CountInv (observe p anc cur σ).
Proof.
  intros Hentry Hrange Hinv t. simpl. rewrite ranges_other by done.
  destruct (decide (p = AtEntry)) as [->|Hp].
  - rewrite white_entries_entry, decide_False; [apply Hinv|].
    intros [<- ?]. by apply Hentry.
  - rewrite white_entries_other by done. apply Hinv.
Qed.

Lemma CountInv_set k c σ :
  c ≠ WHITE → CountInv σ → CountInv (set_nodeColor k c σ).
Proof.
  intros Hc Hinv t. destruct (Hinv t) as (? & ? & Hw). split_and!; [done..|].
  intros H1. simpl. rewrite color_insert.
  destruct (decide (k = t)); [done|by apply Hw].
Qed.

(** A table found unvisited: its first encounter. *)
Lemma CountInv_discover mapiter s anc cur σ :
  color (nodeColor σ) cur = WHITE → CountInv σ →
  let σ1 := observe AtGrey anc cur
              (set_nodeColor cur GREY (observe AtEntry anc cur σ)) in
  CountInv σ1 ∧
  CountInv (observe AtRange anc cur (range_keys mapiter s σ1).2).
Proof.
  intros Hw Hinv.
  assert (H0 : white_entries (log σ) cur = 0 ∧ ranges (log σ) cur = 0).
  { destruct (Hinv cur) as (? & ? & Hnw).
    destruct (decide (white_entries (log σ) cur = 1)) as [H1|];
      [by destruct (Hnw H1)|lia]. }
  split; intros t; simpl;
    rewrite ?ranges_range, ?(ranges_other AtGrey), ?(ranges_other AtEntry),
            ?(white_entries_other AtRange), ?(white_entries_other AtGrey),
            white_entries_entry, color_insert by done;
    destruct (decide (cur = t)) as [<-|Hne].
  - rewrite decide_True by done. destruct H0 as [-> ->]. split_and!; [lia..|done].
  - rewrite decide_False by naive_solver. apply Hinv.
  - rewrite decide_True by done. destruct H0 as [-> ->]. split_and!; [lia..|done].
  - rewrite decide_False by naive_solver. apply Hinv.
Qed.

(** A loop whose calls preserve a property of the state preserves it. *)
Lemma visit_each_preserves (P : state → Prop) rec keys :
  (∀ x c τ τ', P τ → outcome_state (rec x c τ) = Some τ' → P τ') →
  ∀ col σ σ', P σ → outcome_state (visit_each rec keys col σ) = Some σ' →
              P σ'.
Proof.
  intros Hrec. induction keys as [|x keys IH]; intros col σ σ' HP; simpl.
  - by intros [= <-].
  - pose proof (Hrec x col σ) as Hx.
    destruct (rec x col σ) as [[c [e|]] τ|τ|]; simpl in *; [..|done].
    + intros [= <-]. by apply Hx.
    + apply IH. by apply Hx.
    + intros [= <-]. by apply Hx.
Qed.

Lemma visit_counts mapiter fuel : ∀ anc cur col σ σ',
  CountInv σ →
  outcome_state (visit mapiter fuel anc cur col σ) = Some σ' → CountInv σ'.
Proof.
  induction fuel as [|fuel IH]; intros anc cur col σ σ' Hinv; [done|].
  rewrite visit_S. cbv zeta.
  destruct (color (nodeColor σ) cur) eqn:Hc.
  - destruct (tableAt (tables σ) cur) as [info|].
    2:{ simpl. intros [= <-].
        by apply (CountInv_discover mapiter ∅ anc cur σ Hc Hinv). }
    pose proof (proj2 (CountInv_discover mapiter (referencedTables info)
                         anc cur σ Hc Hinv)) as H2.
    set (σ2 := observe AtRange anc cur _) in *.
    pose proof (visit_each_preserves CountInv
      (visit mapiter fuel (cur :: anc))
      (mapiter (rng σ) (referencedTables info))
      (IH (cur :: anc)) col σ2) as Hloop.
    destruct (visit_each _ _ _ _) as [[c' [e|]] σ3|σ3|]; simpl in *;
      [| | |done].
    + intros [= <-]. by apply Hloop.
    + intros [= <-]. specialize (Hloop σ3 H2 eq_refl).
      repeat apply CountInv_observe; try done. by apply CountInv_set.
    + intros [= <-]. by apply Hloop.
  - simpl. intros [= <-]. apply CountInv_observe; [congruence|done..].
  - simpl. intros [= <-].
    repeat apply CountInv_observe; try done; simpl; congruence.
Qed.

Lemma CountInv_start σ : log σ = [] → CountInv σ.
Proof.
  intros Hnil t. rewrite Hnil. unfold ranges, white_entries. simpl.
  split_and!; [lia..|done].
Qed.

(** ** Orders, cycles and well-formedness *)

Lemma Inv_is_order G l c :
  Inv G [] l c → (∀ x, x ∈ dom G → x ∈ l) → is_order G l.
Proof. intros [_ _ _ Ho] Hall. by split. Qed.

Lemma is_order_tc G l a b :
  is_order G l → tc (edge G) a b →
  ∀ i, l !! i = Some a → ∃ j, j < i ∧ l !! j = Some b.
Proof.
  intros [_ Ho]. induction 1 as [a b Hab|a m b Ham _ IH]; intros i Hi.
  - by apply (Ho i a).
  - destruct (Ho i a Hi) as [_ Hm]. destruct (Hm m Ham) as (j & Hj & Hjm).
    destruct (IH j Hjm) as (k & Hk & Hkb). exists k. split; [lia|done].
Qed.

Lemma is_order_acyclic G l : is_order G l → acyclic G.
Proof.
  intros Hord t Htc.
  assert (Hin : t ∈ l).
  { apply Hord. inversion Htc; subst; by eapply edge_dom. }
  apply list_elem_of_lookup in Hin as [i Hi].
  induction (lt_wf i) as [i _ IH].
  destruct (is_order_tc G l t t Hord Htc i Hi) as (j & Hj & Hjt). eauto.
Qed.

Lemma is_order_well_formed G l : is_order G l → well_formed G.
Proof.
  intros [Hall Ho]. split.
  - intros t Ht. assert (Hin : t ∈ l).
    { apply Hall, elem_of_dom. by rewrite Ht. }
    apply list_elem_of_lookup in Hin as [i Hi].
    destruct (Ho i t Hi) as [[info Hinfo] _].
    apply tableAt_Some in Hinfo. congruence.
  - intros a b Hab. assert (Hin : a ∈ l) by by eapply Hall, edge_dom.
    apply list_elem_of_lookup in Hin as [i Hi].
    destruct (Ho i a Hi) as [_ Hb]. destruct (Hb b Hab) as (j & _ & Hj).
    destruct (Ho j b Hj) as [[info Hinfo] _]. by eapply tableAt_dom.
Qed.

Lemma dangling_not_well_formed G : dangling G → ¬ well_formed G.
Proof.
  intros (t & Ht & Hor) Hwf.
  assert (Hd : t ∈ dom G).
  { destruct Hor as [?|[a Ha]]; [done|]. by apply (proj2 Hwf a). }
  destruct (well_formed_tableAt G t Hwf Hd) as [info Hinfo]. congruence.
Qed.

Lemma is_order_index G l a b i j :
  is_order G l → NoDup l → edge G a b →
  l !! i = Some b → l !! j = Some a → i < j.
Proof.
  intros [_ Ho] Hnd Hab Hi Hj.
  destruct (Ho j a Hj) as [_ Hb]. destruct (Hb b Hab) as (k & Hk & Hkb).
  by rewrite (NoDup_lookup l i k b Hnd Hi Hkb).
Qed.

Lemma well_formedb_sound G : well_formedb G = true → well_formed G.
Proof.
  intros H%bool_decide_eq_true. split.
  - intros t Ht. by apply (H t None).
  - intros a b. unfold edge, refs. destruct (tableAt G a) as [info|] eqn:Ha;
      [|set_solver].
    apply tableAt_Some in Ha. specialize (H a _ Ha). simpl in H. set_solver.
Qed.

Lemma is_orderb_sound G l : is_orderb G l = true → is_order G l.
Proof.
  intros [Hall Hpos]%andb_true_iff.
  apply bool_decide_eq_true in Hall, Hpos. split.
  - intros x Hx. apply Hall in Hx. by apply elem_of_list_to_set in Hx.
  - intros i a Hi. rewrite Forall_seq in Hpos.
    pose proof (lookup_lt_Some _ _ _ Hi) as Hlt.
    specialize (Hpos i ltac:(lia)). rewrite Hi in Hpos.
    destruct Hpos as [Ha Hrefs]. split; [done|]. intros b Hb.
    apply Hrefs, elem_of_list_to_set, list_elem_of_lookup in Hb as [j Hj].
    apply lookup_take_Some in Hj as [Hj Hji]. eauto.
Qed.

Lemma fair_canonical : fair canonical_order.
Proof. by intros n s. Qed.

Lemma fair_reversed : fair reversed_order.
Proof. intros n s. apply reverse_Permutation. Qed.

(** ** The three ways a run of [topoSortTables] ends *)

Lemma topoSortTables_acyclic mapiter fuel G :
  fair mapiter → well_formed G → acyclic G → size (dom G) < fuel →
  ∃ l σ', topoSortTables mapiter fuel G = Returned (l, None) σ' ∧
          Inv G [] l (nodeColor σ') ∧ is_order G l.
Proof.
  intros Hfair Hwf Hac Hfuel.
  pose proof (topoSortTables_spec mapiter Hfair fuel G Hfuel) as Hpost.
  unfold topo_post in Hpost.
  destruct (topoSortTables mapiter fuel G) as [[l [e|]] σ'|σ'|]; [| | |done].
  - destruct Hpost as (_ & (t & _ & Htc & _) & _). by destruct (Hac t).
  - destruct Hpost as (HI & Hall & _). exists l, σ'. split_and!; [done..|].
    by eapply Inv_is_order.
  - destruct Hpost as [Hd _]. by apply dangling_not_well_formed in Hd.
Qed.

Lemma topoSortTables_cyclic mapiter fuel G :
  fair mapiter → well_formed G → (∃ t, tc (edge G) t t) →
  size (dom G) < fuel →
  ∃ e σ', topoSortTables mapiter fuel G = Returned ([], Some e) σ' ∧
          on_cycle G e σ'.
Proof.
  intros Hfair Hwf [t Ht] Hfuel.
  pose proof (topoSortTables_spec mapiter Hfair fuel G Hfuel) as Hpost.
  unfold topo_post in Hpost.
  destruct (topoSortTables mapiter fuel G) as [[l [e|]] σ'|σ'|]; [| | |done].
  - destruct Hpost as (-> & Hcyc & _). eauto.
  - destruct Hpost as (HI & Hall & _).
    destruct (is_order_acyclic G l (Inv_is_order _ _ _ HI Hall) t Ht).
  - destruct Hpost as [Hd _]. by apply dangling_not_well_formed in Hd.
Qed.

Lemma topoSortTables_extends mapiter fuel G σ' :
  outcome_state (topoSortTables mapiter fuel G) = Some σ' →
  ∃ σ, started G σ ∧ extends σ σ'.
Proof.
  destruct (topoSortTables_start mapiter fuel G) as (σ & Hσ & ->).
  intros H. exists σ. split; [done|].
  eapply visit_each_extends; [|done]. intros x c τ τ'. apply visit_extends.
Qed.

Lemma topoSortTables_terminates mapiter fuel G :
  size (dom G) < fuel → topoSortTables mapiter fuel G ≠ OutOfFuel.
Proof.
  intros Hfuel.
  destruct (topoSortTables_start mapiter fuel G) as (σ & (Ht & _) & ->).
  pose proof (visit_each_rule (visit mapiter fuel [])
    (λ _ _ τ, tables τ = G) (λ _ _, True) (λ _, True) False
    (mapiter 1 (dom G)) [] [] σ Ht) as Hloop.
  lapply Hloop; clear Hloop.
  - intros Hloop. simpl in Hloop.
    by destruct (visit_each _ _ _ _) as [[c' [e|]] σ3|σ3|].
  - intros seen x c τ _ Hτ. unfold call_post.
    pose proof (visit_extends mapiter fuel [] x c τ) as Hext.
    pose proof (visit_terminates mapiter fuel [] x c τ) as Hterm.
    destruct (visit mapiter fuel [] x c τ) as [[c' [e|]] τ'|τ'|];
      simpl in *; try done.
    + destruct (Hext τ' eq_refl) as [-> _]. done.
    + apply Hterm; [|done]. eapply Nat.le_lt_trans; [|done].
      rewrite <- Hτ. apply whiteKeys_dom.
Qed.

Lemma topoSortTables_counts mapiter fuel G σ' :
  outcome_state (topoSortTables mapiter fuel G) = Some σ' → CountInv σ'.
Proof.
  destruct (topoSortTables_start mapiter fuel G) as (σ & (_ & _ & Hnil & _) & ->).
  apply visit_each_preserves; [|by apply CountInv_start].
  intros x c τ τ'. apply visit_counts.
Qed.

(** *** Where a run panics *)

Lemma visit_panic mapiter fuel : fair mapiter → ∀ anc cur col σ σ',
  visit mapiter fuel anc cur col σ = Panicked σ' →
  ∃ anc' t, head (log σ') = Some (Snap AtGrey anc' t (nodeColor σ')) ∧
            color (nodeColor σ') t = GREY ∧
            tableAt (tables σ) t = None ∧
            (t = cur ∨ ∃ a, edge (tables σ) a t).
Proof.
  intros Hfair. induction fuel as [|fuel IH]; intros anc cur col σ σ'; [done|].
  rewrite visit_S. cbv zeta. set (G := tables σ).
  destruct (color (nodeColor σ) cur) eqn:Hc; [|done..].
  destruct (tableAt G cur) as [info|] eqn:Ht.
  2:{ intros [= <-]. exists anc, cur. simpl. rewrite color_insert, decide_True by done.
      split_and!; [done..|by left]. }
  set (σ2 := observe AtRange anc cur _).
  pose proof (visit_each_rule (visit mapiter fuel (cur :: anc))
    (λ _ _ τ, tables τ = G) (λ _ _, True)
    (λ τ, ∃ anc' t, head (log τ) = Some (Snap AtGrey anc' t (nodeColor τ)) ∧
                    color (nodeColor τ) t = GREY ∧
                    tableAt G t = None ∧ ∃ a, edge G a t) True
    (mapiter (rng σ) (referencedTables info)) [] col σ2 eq_refl) as Hloop.
  lapply Hloop; clear Hloop.
  2:{ intros seen x c τ Hx Hτ. unfold call_post.
      pose proof (IH (cur :: anc) x c τ) as IHx.
      pose proof (visit_extends mapiter fuel (cur :: anc) x c τ) as Hext.
      destruct (visit mapiter fuel (cur :: anc) x c τ)
        as [[c' [e|]] τ'|τ'|]; [done| | |done].
      - destruct (Hext τ' eq_refl) as [-> _]. done.
      - destruct (IHx τ' eq_refl) as (anc' & t & Hh & Hg & Hnone & Hor).
        rewrite Hτ in Hnone, Hor. exists anc', t. split_and!; [done..|].
        destruct Hor as [->|?]; [|done]. exists cur.
        unfold edge, refs. rewrite Ht.
        by apply (elem_of_mapiter mapiter Hfair) in Hx. }
  intros Hloop. simpl in Hloop.
  destruct (visit_each _ _ _ _) as [[c' [e|]] σ3|σ3|]; [done..| |done].
  intros [= <-]. destruct Hloop as (anc' & t & ? & ? & ? & ?).
  exists anc', t. split_and!; [done..|by right].
Qed.

Lemma topoSortTables_panic mapiter fuel G σ' : fair mapiter →
  topoSortTables mapiter fuel G = Panicked σ' →
  ∃ anc t, head (log σ') = Some (Snap AtGrey anc t (nodeColor σ')) ∧
           color (nodeColor σ') t = GREY ∧
           tableAt G t = None ∧ (t ∈ dom G ∨ ∃ a, edge G a t).
Proof.
  intros Hfair.
  destruct (topoSortTables_start mapiter fuel G) as (σ & (Ht & _) & ->).
  pose proof (visit_each_rule (visit mapiter fuel [])
    (λ _ _ τ, tables τ = G) (λ _ _, True)
    (λ τ, ∃ anc t, head (log τ) = Some (Snap AtGrey anc t (nodeColor τ)) ∧
                   color (nodeColor τ) t = GREY ∧
                   tableAt G t = None ∧ (t ∈ dom G ∨ ∃ a, edge G a t)) True
    (mapiter 1 (dom G)) [] [] σ Ht) as Hloop.
  lapply Hloop; clear Hloop.
  2:{ intros seen x c τ Hx Hτ. unfold call_post.
      pose proof (visit_panic mapiter fuel Hfair [] x c τ) as Hp.
      pose proof (visit_extends mapiter fuel [] x c τ) as Hext.
      destruct (visit mapiter fuel [] x c τ)
        as [[c' [e|]] τ'|τ'|]; [done| | |done].
      - destruct (Hext τ' eq_refl) as [-> _]. done.
      - destruct (Hp τ' eq_refl) as (anc' & t & Hh & Hg & Hnone & Hor).
        rewrite Hτ in Hnone, Hor. exists anc', t. split_and!; [done..|].
        destruct Hor as [->|?]; [left|by right].
        by apply (elem_of_mapiter mapiter Hfair) in Hx. }
  intros Hloop Hrun. rewrite Hrun in Hloop. exact Hloop.
Qed.

(** ** The specification, claim by claim

    Every statement holds for each admissible choice [mapiter] of the
    orders in which the range statements yield their keys, and for each
    recursion budget [fuel] above the number of keys of the table map. *)

(** C1. On an acyclic graph, whenever [topoSortTables] returns a
    sequence [l] with a nil error, then for every edge from [a] to [b]
    ([a] references [b]) both tables occur in [l] and every index of [b]
    is strictly less than every index of [a]; and on a dependency graph
    (every key holds a table, every referenced name is a key) it does
    return such a sequence. *)
Theorem topoSortTables_topological_order mapiter fuel G :
  fair mapiter → acyclic G → size (dom G) < fuel →
  (∀ l σ', topoSortTables mapiter fuel G = Returned (l, None) σ' →
     ∀ a b, edge G a b →
       (∃ i j, l !! i = Some b ∧ l !! j = Some a) ∧
       (∀ i j, l !! i = Some b → l !! j = Some a → i < j)) ∧
  (well_formed G →
     ∃ l σ', topoSortTables mapiter fuel G = Returned (l, None) σ').
Proof.
  intros Hfair Hac Hfuel. split.
  - intros l σ' Hrun a b Hab.
    pose proof (topoSortTables_spec mapiter Hfair fuel G Hfuel) as Hpost.
    rewrite Hrun in Hpost. destruct Hpost as (HI & Hall & _).
    pose proof (Inv_is_order _ _ _ HI Hall) as Hord. split.
    + assert (Ha : a ∈ l) by by eapply Hall, edge_dom.
      apply list_elem_of_lookup in Ha as [j Hj].
      destruct (proj2 Hord j a Hj) as [_ Hb].
      destruct (Hb b Hab) as (i & _ & Hi). eauto.
    + intros i j Hi Hj. eapply is_order_index; eauto using inv_nodup.
  - intros Hwf.
    destruct (topoSortTables_acyclic mapiter fuel G Hfair Hwf Hac Hfuel)
      as (l & σ' & Hrun & _). eauto.
Qed.

Lemma topoSortTables_topological_order_witness :
  ∃ l σ', topoSortTables canonical_order 5 shop = Returned (l, None) σ' ∧
    ∀ a b, edge shop a b →
      (∃ i j, l !! i = Some b ∧ l !! j = Some a) ∧
      (∀ i j, l !! i = Some b → l !! j = Some a → i < j).
Proof.
  assert (Hord : is_order shop ["customers"; "products"; "orders"; "line_items"])
    by (apply is_orderb_sound; vm_compute; reflexivity).
  assert (Hfuel : size (dom shop) < 5) by (vm_compute; lia).
  destruct (topoSortTables_topological_order canonical_order 5 shop
              fair_canonical (is_order_acyclic _ _ Hord) Hfuel)
    as [Horder Hruns].
  destruct (Hruns (is_order_well_formed _ _ Hord)) as (l & σ' & Hrun).
  exists l, σ'. split; [exact Hrun|]. exact (Horder l σ' Hrun).
Defined.

(** C2. On an acyclic dependency graph [topoSortTables] returns with a
    nil error, and the returned sequence has no duplicate and holds
    exactly the keys of the table map. *)
Theorem topoSortTables_every_table_once mapiter fuel G :
  fair mapiter → well_formed G → acyclic G → size (dom G) < fuel →
  ∃ l σ', topoSortTables mapiter fuel G = Returned (l, None) σ' ∧
          NoDup l ∧ ∀ t, t ∈ l ↔ t ∈ dom G.
Proof.
  intros Hfair Hwf Hac Hfuel.
  destruct (topoSortTables_acyclic mapiter fuel G Hfair Hwf Hac Hfuel)
    as (l & σ' & Hrun & HI & Hall & Ho).
  exists l, σ'. split_and!; [done|by eapply inv_nodup|].
  intros t. split; [|apply Hall].
  intros [i Hi]%list_elem_of_lookup.
  destruct (Ho i t Hi) as [[info Hinfo] _]. by eapply tableAt_dom.
Qed.

Lemma topoSortTables_every_table_once_witness :
  ∃ l σ', topoSortTables reversed_order 5 shop = Returned (l, None) σ' ∧
          NoDup l ∧ ∀ t, t ∈ l ↔ t ∈ dom shop.
Proof.
  assert (Hord : is_order shop ["customers"; "products"; "orders"; "line_items"])
    by (apply is_orderb_sound; vm_compute; reflexivity).
  apply topoSortTables_every_table_once.
  - apply fair_reversed.
  - exact (is_order_well_formed _ _ Hord).
  - exact (is_order_acyclic _ _ Hord).
  - vm_compute. lia.
Defined.

(** C3. On a graph with a directed cycle, of any length, whatever
    [topoSortTables] returns is the nil slice together with the error that
    names a table [t]; [t] lies on a cycle, and the last step of the run
    was the entry of [visit] at [t] while [t] was in progress. On a
    dependency graph (every key holds a table, every referenced name is a
    key) the run does return. *)
Theorem topoSortTables_cycle_error mapiter fuel G :
  fair mapiter → (∃ t, tc (edge G) t t) → size (dom G) < fuel →
  (∀ r e σ', topoSortTables mapiter fuel G = Returned (r, e) σ' →
     r = [] ∧
     ∃ t, e = Some ("found reference loops while visiting table " +:+ t) ∧
          tc (edge G) t t ∧
          color (nodeColor σ') t = GREY ∧
          ∃ anc, head (log σ') = Some (Snap AtEntry anc t (nodeColor σ'))) ∧
  (well_formed G →
     ∃ r e σ', topoSortTables mapiter fuel G = Returned (r, e) σ').
Proof.
  intros Hfair [t Ht] Hfuel. split.
  - intros r e σ' Hrun.
    pose proof (topoSortTables_spec mapiter Hfair fuel G Hfuel) as Hpost.
    rewrite Hrun in Hpost. destruct e as [e|]; simpl in Hpost.
    + destruct Hpost as (-> & (t' & -> & ?) & _). eauto.
    + destruct Hpost as (HI & Hall & _).
      destruct (is_order_acyclic G r (Inv_is_order _ _ _ HI Hall) t Ht).
  - intros Hwf.
    destruct (topoSortTables_cyclic mapiter fuel G Hfair Hwf
                (ex_intro _ t Ht) Hfuel) as (e & σ' & Hrun & _). eauto.
Qed.

Lemma topoSortTables_cycle_error_witness :
  ∃ t σ', topoSortTables reversed_order 4 late_cycle
            = Returned
                ([], Some ("found reference loops while visiting table " +:+ t))
                σ' ∧
          tc (edge late_cycle) t t ∧
          color (nodeColor σ') t = GREY ∧
          ∃ anc, head (log σ') = Some (Snap AtEntry anc t (nodeColor σ')).
Proof.
  assert (Hcyc : ∃ t, tc (edge late_cycle) t t).
  { exists "b". apply (tc_l _ _ "c"); [|apply tc_once]; vm_compute; reflexivity. }
  assert (Hfuel : size (dom late_cycle) < 4) by (vm_compute; lia).
  assert (Hwf : well_formed late_cycle)
    by (apply well_formedb_sound; vm_compute; reflexivity).
  destruct (topoSortTables_cycle_error reversed_order 4 late_cycle
              fair_reversed Hcyc Hfuel) as [Herr Hruns].
  destruct (Hruns Hwf) as (r & e & σ' & Hrun).
  destruct (Herr r e σ' Hrun) as (-> & t & -> & Htc & Hgrey & Hlog).
  exists t, σ'. split_and!; [exact Hrun|exact Htc|exact Hgrey|exact Hlog].
Defined.

(** C4, as the code has it. When a table references a name that is not a
    key of the table map, [topoSortTables] returns neither a sequence nor
    an error of a kind of its own: the run panics on a nil pointer (the
    one it reads for that name, or the one held by a key it reaches
    before), unless it first meets a cycle and returns the cycle error,
    whose text names a table on a cycle. *)
Theorem topoSortTables_unknown_reference mapiter fuel G :
  fair mapiter → (∃ a b, edge G a b ∧ b ∉ dom G) → size (dom G) < fuel →
  (∃ σ', topoSortTables mapiter fuel G = Panicked σ') ∨
  (∃ t σ', topoSortTables mapiter fuel G
             = Returned
                 ([], Some ("found reference loops while visiting table " +:+ t))
                 σ' ∧
           tc (edge G) t t).
Proof.
  intros Hfair (a & b & Hab & Hb) Hfuel.
  pose proof (topoSortTables_spec mapiter Hfair fuel G Hfuel) as Hpost.
  unfold topo_post in Hpost.
  destruct (topoSortTables mapiter fuel G) as [[l [e|]] σ'|σ'|]; [| | |done].
  - destruct Hpost as (-> & (t & -> & Htc & _) & _). right. eauto.
  - destruct Hpost as (HI & Hall & _).
    pose proof (is_order_well_formed G l (Inv_is_order _ _ _ HI Hall)) as Hwf.
    destruct Hb. by apply (proj2 Hwf a).
  - left. eauto.
Qed.

Lemma topoSortTables_unknown_reference_witness :
  (∃ σ', topoSortTables canonical_order 2 unknown_ref = Panicked σ') ∨
  (∃ t σ', topoSortTables canonical_order 2 unknown_ref
             = Returned
                 ([], Some ("found reference loops while visiting table " +:+ t))
                 σ' ∧
           tc (edge unknown_ref) t t).
Proof.
  apply topoSortTables_unknown_reference.
  - apply fair_canonical.
  - exists "a", "b". split; [vm_compute; reflexivity|vm_compute; discriminate].
  - vm_compute. lia.
Defined.

(** C4, as stated, fails: on the map in which table a references the
    absent name b the run panics; no error is returned. *)
Lemma unknown_reference_panics :
  edge unknown_ref "a" "b" ∧ ("b" ∉ dom unknown_ref) ∧
  (∃ σ', topoSortTables canonical_order 2 unknown_ref = Panicked σ') ∧
  ¬ (∃ r e σ', topoSortTables canonical_order 2 unknown_ref
               = Returned (r, Some e) σ').
Proof.
  split_and!.
  - vm_compute. reflexivity.
  - vm_compute. discriminate.
  - eexists. vm_compute. reflexivity.
  - intros (r & e & σ' & H). vm_compute in H. discriminate.
Qed.

(** C5, as the code has it. When every key of the table map holds a
    table (no nil pointer) and every referenced name is a key, no call
    dereferences a nil pointer: [visit] at a key, and [topoSortTables],
    return. The dereference that can fail is the one at a name that is not
    a key: [nodeColor] has no entry for it and reads [WHITE], the name is
    marked [GREY], and reading its table panics. *)
Theorem nil_dereference_unreachable mapiter fuel G :
  fair mapiter → well_formed G →
  (∀ anc cur col σ,
     tables σ = G → cur ∈ dom G → size (whiteKeys σ) < fuel →
     ∃ r σ', visit mapiter fuel anc cur col σ = Returned r σ') ∧
  (size (dom G) < fuel →
     ∃ r σ', topoSortTables mapiter fuel G = Returned r σ') ∧
  (∀ anc name col σ,
     tables σ = G → name ∉ dom G → nodeColor σ !! name = None →
     ∃ σ', visit mapiter (S fuel) anc name col σ = Panicked σ' ∧
           color (nodeColor σ') name = GREY).
Proof.
  intros Hfair Hwf. split_and!.
  - intros anc cur col σ Hσ Hcur Hfuel.
    pose proof (visit_terminates mapiter fuel anc cur col σ Hfuel) as Hterm.
    pose proof (visit_no_panic mapiter fuel Hfair anc cur col σ) as Hsafe.
    rewrite Hσ in Hsafe.
    destruct (visit mapiter fuel anc cur col σ) as [r σ'|σ'|]; [eauto| |done].
    by destruct (Hsafe σ' Hwf Hcur).
  - intros Hfuel.
    pose proof (topoSortTables_spec mapiter Hfair fuel G Hfuel) as Hpost.
    destruct (topoSortTables mapiter fuel G) as [r σ'|σ'|]; [eauto| |done].
    destruct Hpost as [Hd _]. by apply dangling_not_well_formed in Hd.
  - intros anc name col σ Hσ Hname Hcol. rewrite visit_S. cbv zeta.
    assert (color (nodeColor σ) name = WHITE) as ->.
    { unfold color. by rewrite Hcol. }
    assert (tableAt (tables σ) name = None) as ->.
    { unfold tableAt. rewrite Hσ.
      apply not_elem_of_dom in Hname. by rewrite Hname. }
    eexists. split; [done|]. simpl. rewrite color_insert.
    by rewrite decide_True.
Qed.

Lemma nil_dereference_unreachable_witness :
  (∃ r σ', visit canonical_order 5 [] "orders" [] (initial shop)
             = Returned r σ') ∧
  (∃ r σ', topoSortTables canonical_order 5 shop = Returned r σ') ∧
  (∃ σ', visit canonical_order 6 [] "suppliers" [] (initial shop)
           = Panicked σ' ∧
         color (nodeColor σ') "suppliers" = GREY).
Proof.
  assert (Hwf : well_formed shop)
    by (apply well_formedb_sound; vm_compute; reflexivity).
  destruct (nil_dereference_unreachable canonical_order 5 shop
              fair_canonical Hwf) as (Hvisit & Htopo & Hunknown).
  split_and!.
  - apply Hvisit; [reflexivity|vm_compute; reflexivity|vm_compute; lia].
  - apply Htopo. vm_compute. lia.
  - apply Hunknown; [reflexivity|vm_compute; discriminate|reflexivity].
Defined.

Lemma closed_nil_entry : closed nil_entry.
Proof.
  intros a b. unfold edge, refs, tableAt, nil_entry. simpl.
  rewrite insert_empty.
  destruct (decide (a = "a")) as [->|Hne].
  - rewrite lookup_singleton_eq. simpl. by intros ?%elem_of_empty.
  - rewrite lookup_singleton_ne by done. simpl. by intros ?%elem_of_empty.
Qed.

(** C5, as stated, fails: in the map whose only key holds the nil
    pointer no table references anything, hence every referenced name is
    a key, and the run panics. *)
Lemma nil_entry_panics :
  closed nil_entry ∧
  ∃ σ', topoSortTables canonical_order 2 nil_entry = Panicked σ'.
Proof.
  split; [apply closed_nil_entry|]. eexists. vm_compute. reflexivity.
Qed.

(** C6, as the code has it. Throughout a run of [topoSortTables],
    however it ends: from one observation to the next the colour of each
    table stays or moves from [WHITE] to [GREY] or from [GREY] to [BLACK],
    starting from [WHITE]; at the moment a table is marked [BLACK] every
    table it references is [BLACK]. As long as no call has failed, at the
    entry and at the successful return of every call of [visit] the
    [GREY] tables are the tables of the calls above it on the stack, and
    between the two writes of a call they are its own table and those.
    Nothing is written after the last observation. So a run that returns
    a sequence ends with no table [GREY]; a run that returns the cycle
    error ends, all calls having returned, with the whole call path of the
    failed call still [GREY], the table named by the error among them;
    and a run that panics ends with the table it marked last and its call
    path [GREY]. *)
Theorem colours_follow_the_call_path mapiter fuel G :
  fair mapiter → size (dom G) < fuel →
  ∃ σ', outcome_state (topoSortTables mapiter fuel G) = Some σ' ∧
    (∀ i s s', log σ' !! S i = Some s → log σ' !! i = Some s' →
       ∀ t, color_step (color (snap_colors s) t) (color (snap_colors s') t)) ∧
    (∀ s, last (log σ') = Some s →
       ∀ t, color_step WHITE (color (snap_colors s) t)) ∧
    (∀ s, s ∈ log σ' → snapshot_ok G s) ∧
    (∀ s, head (log σ') = Some s → snap_colors s = nodeColor σ') ∧
    match topoSortTables mapiter fuel G with
    | Returned (_, None) _ => ∀ u, color (nodeColor σ') u ≠ GREY
    | Returned (_, Some _) _ =>
        ∃ anc t,
          head (log σ') = Some (Snap AtEntry anc t (nodeColor σ')) ∧
          t ∈ anc ∧ ∀ u, color (nodeColor σ') u = GREY ↔ u ∈ anc
    | Panicked _ =>
        ∃ anc t,
          head (log σ') = Some (Snap AtGrey anc t (nodeColor σ')) ∧
          ∀ u, color (nodeColor σ') u = GREY ↔ u ∈ t :: anc
    | OutOfFuel => False
    end.
Proof.
  intros Hfair Hfuel.
  pose proof (topoSortTables_spec mapiter Hfair fuel G Hfuel) as Hpost.
  pose proof (topoSortTables_extends mapiter fuel G) as Hext.
  pose proof (topoSortTables_panic mapiter fuel G) as Hpanic.
  destruct (outcome_state (topoSortTables mapiter fuel G)) as [σ'|] eqn:Hσ'.
  2:{ by destruct (topoSortTables mapiter fuel G) as [[l [e|]] σ'|σ'|]. }
  exists σ'. split; [done|].
  destruct (Hext σ' eq_refl)
    as (σ & (_ & _ & Hnil & Hw) & _ & _ & new & Hlog & Hlin).
  rewrite Hnil, app_nil_r in Hlog. subst new.
  assert (Hok : ∀ s, s ∈ log σ' → snapshot_ok G s).
  { unfold topo_post in Hpost.
    destruct (topoSortTables mapiter fuel G) as [[l [e|]] τ|τ|];
      simpl in Hσ'; simplify_eq; naive_solver. }
  split_and!; [| |exact Hok| |].
  - intros i s s' Hs Hs'. by eapply lineage_lookup.
  - intros s Hs t. pose proof (lineage_last _ _ _ s Hlin Hs t) as Hstep.
    by rewrite Hw in Hstep.
  - intros s Hs. destruct (log σ') as [|s0 l]; [done|].
    injection Hs as ->. by destruct Hlin as [? _].
  - unfold topo_post in Hpost.
    destruct (topoSortTables mapiter fuel G) as [[l [e|]] τ|τ|];
      simpl in Hσ'; simplify_eq.
    + destruct Hpost as (_ & (t & _ & _ & Hgrey & anc & Hhead) & _).
      assert (Hsnap : ∀ u, color (nodeColor σ') u = GREY ↔ u ∈ anc).
      { apply (Hok (Snap AtEntry anc t (nodeColor σ'))).
        destruct (log σ') as [|s0 l']; [done|]. injection Hhead as ->. left. }
      exists anc, t. split_and!; [done| |done]. by apply Hsnap.
    + destruct Hpost as (HI & _). intros u Hu.
      apply (inv_grey _ _ _ _ HI) in Hu. by apply elem_of_nil in Hu.
    + destruct (Hpanic σ' Hfair eq_refl) as (anc & t & Hhead & _).
      exists anc, t. split; [done|].
      apply (Hok (Snap AtGrey anc t (nodeColor σ'))).
      destruct (log σ') as [|s0 l']; [done|]. injection Hhead as ->. left.
Qed.

Lemma colours_follow_the_call_path_witness :
  ∃ σ', outcome_state (topoSortTables canonical_order 3 mutual) = Some σ' ∧
    (∀ i s s', log σ' !! S i = Some s → log σ' !! i = Some s' →
       ∀ t, color_step (color (snap_colors s) t) (color (snap_colors s') t)) ∧
    (∀ s, last (log σ') = Some s →
       ∀ t, color_step WHITE (color (snap_colors s) t)) ∧
    (∀ s, s ∈ log σ' → snapshot_ok mutual s) ∧
    (∀ s, head (log σ') = Some s → snap_colors s = nodeColor σ') ∧
    match topoSortTables canonical_order 3 mutual with
    | Returned (_, None) _ => ∀ u, color (nodeColor σ') u ≠ GREY
    | Returned (_, Some _) _ =>
        ∃ anc t,
          head (log σ') = Some (Snap AtEntry anc t (nodeColor σ')) ∧
          t ∈ anc ∧ ∀ u, color (nodeColor σ') u = GREY ↔ u ∈ anc
    | Panicked _ =>
        ∃ anc t,
          head (log σ') = Some (Snap AtGrey anc t (nodeColor σ')) ∧
          ∀ u, color (nodeColor σ') u = GREY ↔ u ∈ t :: anc
    | OutOfFuel => False
    end.
Proof.
  apply colours_follow_the_call_path.
  - apply fair_canonical.
  - vm_compute. lia.
Defined.

(** C6, as stated, fails: on the two tables that reference each other
    the run has returned its error, no call of [visit] is active any
    more, and both tables are still [GREY]. *)
Lemma grey_outlives_the_call_stack :
  ∃ e σ',
    topoSortTables canonical_order 3 mutual = Returned ([], Some e) σ' ∧
    color (nodeColor σ') "a" = GREY ∧ color (nodeColor σ') "b" = GREY.
Proof.
  do 2 eexists. split_and!; vm_compute; reflexivity.
Qed.

(** C7. On every table map [topoSortTables] ends (the recursion is no
    deeper than the number of keys plus one), and in the run the
    references of each table are ranged over at most as often as the table
    is found [WHITE] at the entry of [visit], which happens at most once.
    Every other encounter ends at once, without a range statement and
    without a write to [nodeColor]: a call that finds its table [GREY]
    fails with the nil slice and the error that names the table, and a
    call that finds it [BLACK] returns the collector it was given with a
    nil error. *)
Theorem references_ranged_once mapiter fuel G :
  size (dom G) < fuel →
  (∃ σ', outcome_state (topoSortTables mapiter fuel G) = Some σ' ∧
     ∀ t, ranges (log σ') t ≤ white_entries (log σ') t ∧
          white_entries (log σ') t ≤ 1) ∧
  (∀ n anc cur col σ, color (nodeColor σ) cur = GREY →
     ∃ σ', visit mapiter (S n) anc cur col σ
           = Returned
               ([], Some ("found reference loops while visiting table "
                          +:+ cur)) σ' ∧
           rng σ' = rng σ ∧ nodeColor σ' = nodeColor σ) ∧
  (∀ n anc cur col σ, color (nodeColor σ) cur = BLACK →
     ∃ σ', visit mapiter (S n) anc cur col σ = Returned (col, None) σ' ∧
           rng σ' = rng σ ∧ nodeColor σ' = nodeColor σ).
Proof.
  intros Hfuel. split_and!.
  - pose proof (topoSortTables_terminates mapiter fuel G Hfuel) as Hterm.
    pose proof (topoSortTables_counts mapiter fuel G) as Hcount.
    destruct (topoSortTables mapiter fuel G) as [r σ'|σ'|]; [| |done];
      exists σ'; (split; [done|]); intros t;
      destruct (Hcount σ' eq_refl t) as (? & ? & _); done.
  - intros n anc cur col σ Hc. rewrite visit_S. cbv zeta. rewrite Hc.
    eexists. split; [reflexivity|done].
  - intros n anc cur col σ Hc. rewrite visit_S. cbv zeta. rewrite Hc.
    eexists. split; [reflexivity|done].
Qed.

Lemma references_ranged_once_witness :
  (∃ σ', outcome_state (topoSortTables reversed_order 5 shop) = Some σ' ∧
     ∀ t, ranges (log σ') t ≤ white_entries (log σ') t ∧
          white_entries (log σ') t ≤ 1) ∧
  (∃ σ', visit reversed_order 1 [] "orders" ["products"] orders_in_progress
         = Returned
             ([], Some "found reference loops while visiting table orders")
             σ' ∧
         rng σ' = rng orders_in_progress ∧
         nodeColor σ' = nodeColor orders_in_progress) ∧
  (∃ σ', visit reversed_order 1 ["b"] "d" ["d"] shared_done
         = Returned (["d"], None) σ' ∧
         rng σ' = rng shared_done ∧
         nodeColor σ' = nodeColor shared_done).
Proof.
  assert (Hfuel : size (dom shop) < 5) by (vm_compute; lia).
  destruct (references_ranged_once reversed_order 5 shop Hfuel)
    as (Hcount & Hgrey & Hblack).
  split_and!; [exact Hcount| |].
  - apply (Hgrey 0 [] "orders" ["products"] orders_in_progress).
    vm_compute. reflexivity.
  - apply (Hblack 0 ["b"] "d" ["d"] shared_done).
    vm_compute. reflexivity.
Defined.

(** C8, as the code has it. On an acyclic dependency graph in which two
    distinct tables [a] and [b] reference the same table [c],
    [topoSortTables] returns with a nil error and [c] occurs at exactly
    one index of the returned sequence; and a call of [visit] at a table
    that is [BLACK] returns at once the collector it was given, with a nil
    error, [nodeColor] and [tables] being as before. *)
Theorem diamond_shared_once mapiter fuel G a b c :
  fair mapiter → well_formed G → acyclic G →
  a ≠ b → edge G a c → edge G b c → size (dom G) < fuel →
  (∃ l σ', topoSortTables mapiter fuel G = Returned (l, None) σ' ∧
           ∃ i, l !! i = Some c ∧ ∀ j, l !! j = Some c → j = i) ∧
  (∀ n anc cur col σ, color (nodeColor σ) cur = BLACK →
     ∃ σ', visit mapiter (S n) anc cur col σ = Returned (col, None) σ' ∧
           nodeColor σ' = nodeColor σ ∧ tables σ' = tables σ).
Proof.
  intros Hfair Hwf Hac Hab Hac' Hbc Hfuel. split.
  - destruct (topoSortTables_acyclic mapiter fuel G Hfair Hwf Hac Hfuel)
      as (l & σ' & Hrun & HI & Hall & Ho).
    exists l, σ'. split; [done|].
    assert (Hc : c ∈ l) by by apply Hall, (proj2 Hwf a).
    apply list_elem_of_lookup in Hc as [i Hi]. exists i. split; [done|].
    intros j Hj. by eapply NoDup_lookup; [eapply inv_nodup|..].
  - intros n anc cur col σ Hc. rewrite visit_S. cbv zeta. rewrite Hc. eauto.
Qed.

Lemma diamond_shared_once_witness :
  (∃ l σ', topoSortTables canonical_order 5 diamond_graph
             = Returned (l, None) σ' ∧
           ∃ i, l !! i = Some "d" ∧ ∀ j, l !! j = Some "d" → j = i) ∧
  (∃ σ', visit canonical_order 1 ["b"] "d" ["d"] shared_done
         = Returned (["d"], None) σ' ∧
         nodeColor σ' = nodeColor shared_done ∧
         tables σ' = tables shared_done).
Proof.
  assert (Hord : is_order diamond_graph ["d"; "b"; "c"; "a"])
    by (apply is_orderb_sound; vm_compute; reflexivity).
  assert (Hbc : "b" ≠ "c") by discriminate.
  assert (Hbd : edge diamond_graph "b" "d") by (vm_compute; reflexivity).
  assert (Hcd : edge diamond_graph "c" "d") by (vm_compute; reflexivity).
  assert (Hfuel : size (dom diamond_graph) < 5) by (vm_compute; lia).
  destruct (diamond_shared_once canonical_order 5 diamond_graph "b" "c" "d"
              fair_canonical (is_order_well_formed _ _ Hord)
              (is_order_acyclic _ _ Hord) Hbc Hbd Hcd Hfuel)
    as [Honce Hdone].
  split; [exact Honce|].
  apply (Hdone 0 ["b"] "d" ["d"] shared_done).
  vm_compute. reflexivity.
Defined.

(** C8, as stated, fails: a and b both reference c, and next to this
    diamond the table x references itself; the run returns the cycle
    error and no sequence, whichever table it visits first. *)
Lemma diamond_and_cycle_fails :
  well_formed diamond_and_cycle ∧
  "a" ≠ "b" ∧
  edge diamond_and_cycle "a" "c" ∧ edge diamond_and_cycle "b" "c" ∧
  result (topoSortTables canonical_order 5 diamond_and_cycle)
    = Some ([], Some "found reference loops while visiting table x") ∧
  result (topoSortTables reversed_order 5 diamond_and_cycle)
    = Some ([], Some "found reference loops while visiting table x").
Proof.
  split_and!.
  - apply well_formedb_sound. vm_compute. reflexivity.
  - discriminate.
  - vm_compute. reflexivity.
  - vm_compute. reflexivity.
  - vm_compute. reflexivity.
  - vm_compute. reflexivity.
Qed.

(** C9. On the empty table map [topoSortTables] returns the empty
    sequence and a nil error. *)
Theorem topoSortTables_empty mapiter fuel :
  fair mapiter →
  ∃ σ', topoSortTables mapiter fuel ∅ = Returned ([], None) σ'.
Proof.
  intros Hfair.
  assert (Hnil : ∀ n, mapiter n ∅ = []).
  { intros n. apply Permutation_nil_r. by rewrite (Hfair n ∅), elements_empty. }
  destruct (topoSortTables_start mapiter fuel ∅) as (σ & _ & ->).
  rewrite dom_empty_L, Hnil. simpl. eauto.
Qed.

Lemma topoSortTables_empty_witness :
  ∃ σ', topoSortTables canonical_order 0 ∅ = Returned ([], None) σ'.
Proof. apply topoSortTables_empty, fair_canonical. Defined.

(** C10. Neither [visit] nor [topoSortTables] writes to the table map:
    in whatever way a call ends, by a return with or without an error or
    by a panic, the content of [tables], the references of every table
    included, is the one it started with. *)
Theorem tables_unchanged mapiter fuel :
  (∀ anc cur col σ σ',
     outcome_state (visit mapiter fuel anc cur col σ) = Some σ' →
     tables σ' = tables σ) ∧
  (∀ G σ',
     outcome_state (topoSortTables mapiter fuel G) = Some σ' →
     tables σ' = G).
Proof.
  split.
  - intros anc cur col σ σ' H. by apply visit_extends in H as [? _].
  - intros G σ' H.
    apply topoSortTables_extends in H as (σ & (Hσ & _) & Ht & _). congruence.
Qed.

Lemma tables_unchanged_witness :
  (∃ σ', outcome_state (visit canonical_order 3 [] "a" [] (initial mutual))
           = Some σ' ∧ tables σ' = mutual) ∧
  (∃ σ', outcome_state (topoSortTables canonical_order 3 mutual) = Some σ' ∧
         tables σ' = mutual).
Proof.
  destruct (tables_unchanged canonical_order 3) as [Hvisit Htopo].
  split.
  - assert (∃ σ', outcome_state (visit canonical_order 3 [] "a" []
                                   (initial mutual)) = Some σ')
      as [σ' Hσ'] by (vm_compute; eauto).
    exists σ'. split; [exact Hσ'|]. exact (Hvisit _ _ _ _ _ Hσ').
  - assert (∃ σ', outcome_state (topoSortTables canonical_order 3 mutual)
                  = Some σ') as [σ' Hσ'] by (vm_compute; eauto).
    exists σ'. split; [exact Hσ'|]. exact (Htopo _ _ Hσ').
Defined.

(** ** The scenarios of the specification *)

Example shop_canonical :
  result (topoSortTables canonical_order 5 shop)
  = Some (["customers"; "orders"; "products"; "line_items"], None).
Proof. vm_compute. reflexivity. Qed.

Example shop_reversed :
  result (topoSortTables reversed_order 5 shop)
  = Some (["products"; "customers"; "orders"; "line_items"], None).
Proof. vm_compute. reflexivity. Qed.

Example mutual_cycle :
  result (topoSortTables canonical_order 3 mutual)
  = Some ([], Some "found reference loops while visiting table a").
Proof. vm_compute. reflexivity. Qed.

Example selfref_cycle :
  result (topoSortTables canonical_order 2 selfref)
  = Some ([], Some "found reference loops while visiting table a").
Proof. vm_compute. reflexivity. Qed.

(** The table a has been collected when the cycle is met; the returned
    slice is nil all the same. *)
Example late_cycle_discards :
  ∃ σ', topoSortTables reversed_order 4 late_cycle
          = Returned
              ([], Some "found reference loops while visiting table b") σ' ∧
        color (nodeColor σ') "a" = BLACK.
Proof. eexists. split; vm_compute; reflexivity. Qed.

(** ** Further properties of [visit] and [topoSortTables] *)

Lemma grown_by_refl R col σ σ' :
  nodeColor σ' = nodeColor σ → grown_by R col σ col σ'.
Proof.
  intros Hn. exists []. rewrite app_nil_r, Hn. split_and!; [done|constructor| |].
  - intros t. split; [by intros ?%elem_of_nil|]. intros [-> ?]. done.
  - by intros t ?%elem_of_nil.
Qed.

Lemma grown_by_trans R col σ c τ c' τ' :
  extends σ τ → extends τ τ' →
  grown_by R col σ c τ → grown_by R c τ c' τ' → grown_by R col σ c' τ'.
Proof.
  intros Hστ Hττ' (n1 & -> & Hnd1 & Hin1 & HR1) (n2 & -> & Hnd2 & Hin2 & HR2).
  exists (n1 ++ n2). split_and!.
  - by rewrite app_assoc.
  - apply NoDup_app. split_and!; [done| |done].
    intros t [_ Hb]%Hin1 [Hw _]%Hin2. congruence.
  - intros t. rewrite elem_of_app, Hin1, Hin2. split.
    + intros [[Hw Hb]|[Hw Hb]].
      * split; [done|]. destruct Hττ' as (_ & Hk & _). rewrite Hk; congruence.
      * split; [|done]. by eapply extends_rank.
    + intros [Hw Hb]. destruct (color (nodeColor τ) t) eqn:Hτ; [by right| |by left].
      destruct Hττ' as (_ & Hk & _). rewrite Hk in Hb; congruence.
  - intros t [?|?]%elem_of_app; eauto.
Qed.

Lemma grown_by_weaken (R R' : string → Prop) col σ col' σ' :
  (∀ t, R t → R' t) → grown_by R col σ col' σ' → grown_by R' col σ col' σ'.
Proof.
  intros HR (new & ? & ? & ? & Hnew). exists new. split_and!; eauto.
Qed.

Section More.
Context (mapiter : nat → gset string → list string) (Hfair : fair mapiter).

Lemma visit_grows fuel : ∀ anc cur col σ col' σ',
  visit mapiter fuel anc cur col σ = Returned (col', None) σ' →
  grown_by (rtc (edge (tables σ)) cur) col σ col' σ' ∧
  (color (nodeColor σ) cur = WHITE → last col' = Some cur).
Proof.
  induction fuel as [|fuel IH]; intros anc cur col σ col' σ'; [done|].
  rewrite visit_S. cbv zeta. set (G := tables σ).
  destruct (color (nodeColor σ) cur) eqn:Hc; [| done |].
  2:{ intros [= <- <-]. split; [by apply grown_by_refl|done]. }
  destruct (tableAt G cur) as [info|] eqn:Ht; [|done].
  set (σ2 := observe AtRange anc cur _).
  assert (Hn2 : nodeColor σ2 = <[cur := GREY]> (nodeColor σ)) by done.
  pose proof (visit_each_rule (visit mapiter fuel (cur :: anc))
    (λ _ c τ, extends σ2 τ ∧ grown_by (rtc (edge G) cur) col σ2 c τ)
    (λ _ _, True) (λ _, True) True
    (mapiter (rng σ) (referencedTables info)) [] col σ2) as Hloop.
  lapply Hloop; clear Hloop.
  2:{ split; [apply extends_refl|by apply grown_by_refl]. }
  intros Hloop. lapply Hloop; clear Hloop.
  2:{ intros seen x c τ Hx [Hτ Hg]. unfold call_post.
      pose proof (IH (cur :: anc) x c τ) as IHx.
      pose proof (visit_extends mapiter fuel (cur :: anc) x c τ) as Hext.
      destruct (visit mapiter fuel (cur :: anc) x c τ)
        as [[c' [e|]] τ'|τ'|]; [done| |done..].
      destruct (IHx c' τ' eq_refl) as [Hgx _]. specialize (Hext τ' eq_refl).
      assert (Hτeq : tables τ = G) by by destruct Hτ as (-> & _).
      rewrite Hτeq in Hgx.
      split; [by eapply extends_trans|].
      eapply grown_by_trans; [done..|]. eapply grown_by_weaken; [|done].
      intros t Hxt. eapply rtc_l; [|done].
      unfold edge, refs. rewrite Ht.
      by apply (elem_of_mapiter mapiter Hfair) in Hx. }
  intros Hloop. simpl in Hloop.
  destruct (visit_each _ _ _ _) as [[c' [e|]] σ3|σ3|]; [done| |done..].
  intros [= <- <-]. destruct Hloop as (Hext & new & -> & Hnd & Hin & HR).
  split; [|intros _; by rewrite last_snoc].
  assert (Hcur : cur ∉ new).
  { intros [Hw _]%Hin. rewrite Hn2, color_insert, decide_True in Hw; done. }
  exists (new ++ [cur]). split_and!.
  - by rewrite app_assoc.
  - apply NoDup_app. split_and!; [done| |apply NoDup_singleton].
    by intros t ? ->%list_elem_of_singleton.
  - intros t. simpl. rewrite color_insert, elem_of_app, list_elem_of_singleton.
    destruct (decide (cur = t)) as [<-|Hne].
    + naive_solver.
    + rewrite Hin, Hn2, color_insert, decide_False by done. naive_solver.
  - intros t [?| ->%list_elem_of_singleton]%elem_of_app; [eauto|done].
Qed.

End More.

(** *** Every done table has been ranged over *)

Lemma ranges_app l1 l2 t : ranges (l1 ++ l2) t = ranges l1 t + ranges l2 t.
Proof. unfold ranges. by rewrite filter_app, length_app. Qed.

Lemma extends_ranges σ σ' t :
  extends σ σ' → ranges (log σ) t ≤ ranges (log σ') t.
Proof. intros (_ & _ & new & -> & _). rewrite ranges_app. lia. Qed.

Lemma Ranged_mono σ σ' :
  Ranged σ →
  (∀ t, color (nodeColor σ') t = BLACK → color (nodeColor σ) t = BLACK) →
  (∀ t, ranges (log σ) t ≤ ranges (log σ') t) → Ranged σ'.
Proof.
  intros HR Hc Hl t Ht. specialize (HR t (Hc t Ht)). specialize (Hl t). lia.
Qed.

Lemma visit_ranged mapiter fuel : ∀ anc cur col σ σ',
  Ranged σ →
  outcome_state (visit mapiter fuel anc cur col σ) = Some σ' → Ranged σ'.
Proof.
  induction fuel as [|fuel IH]; intros anc cur col σ σ' HR; [done|].
  rewrite visit_S. cbv zeta.
  assert (Hobs : ∀ p τ, Ranged τ → Ranged (observe p anc cur τ)).
  { intros p τ Hτ. apply (Ranged_mono τ); [done..|].
    intros t. apply extends_ranges, extends_observe. }
  destruct (color (nodeColor σ) cur) eqn:Hc.
  - assert (HR1 : Ranged (observe AtGrey anc cur
                    (set_nodeColor cur GREY (observe AtEntry anc cur σ)))).
    { apply Hobs. apply (Ranged_mono (observe AtEntry anc cur σ)); [by apply Hobs| |done].
      intros t. simpl. rewrite color_insert. by destruct (decide (cur = t)). }
    destruct (tableAt (tables σ) cur) as [info|].
    2:{ simpl. by intros [= <-]. }
    set (σ2 := observe AtRange anc cur _).
    assert (HR2 : Ranged σ2) by by apply Hobs.
    assert (Hcur : 1 ≤ ranges (log σ2) cur).
    { simpl. rewrite ranges_range, decide_True by done. lia. }
    pose proof (visit_each_preserves Ranged (visit mapiter fuel (cur :: anc))
      (mapiter (rng σ) (referencedTables info)) (IH (cur :: anc)) col σ2)
      as Hloop.
    pose proof (visit_each_extends (visit mapiter fuel (cur :: anc))
      (mapiter (rng σ) (referencedTables info))
      (visit_extends mapiter fuel (cur :: anc)) col σ2) as Hext.
    destruct (visit_each _ _ _ _) as [[c' [e|]] σ3|σ3|]; simpl in *;
      [| | |done].
    + intros [= <-]. by apply Hloop.
    + intros [= <-]. specialize (Hloop σ3 HR2 eq_refl).
      specialize (Hext σ3 eq_refl). do 2 apply Hobs.
      intros t. simpl. rewrite color_insert.
      destruct (decide (cur = t)) as [<-|]; [intros _|apply Hloop].
      pose proof (extends_ranges _ _ cur Hext). simpl in *. lia.
    + intros [= <-]. by apply Hloop.
  - simpl. intros [= <-]. by apply Hobs.
  - simpl. intros [= <-]. by do 2 apply Hobs.
Qed.

Lemma topoSortTables_ranged mapiter fuel G σ' :
  outcome_state (topoSortTables mapiter fuel G) = Some σ' → Ranged σ'.
Proof.
  destruct (topoSortTables_start mapiter fuel G) as (σ & (_ & _ & _ & Hw) & ->).
  apply visit_each_preserves.
  - intros x c τ τ'. apply visit_ranged.
  - intros t Ht. by rewrite Hw in Ht.
Qed.

(** *** Reachability *)

Lemma Inv_closed G anc col c a b :
  Inv G anc col c → a ∈ col → rtc (edge G) a b → b ∈ col.
Proof.
  intros HI Ha Hab. induction Hab as [|a m b Ham _ IH]; [done|].
  apply IH. apply list_elem_of_lookup in Ha as [i Hi].
  destruct (inv_order _ _ _ _ HI i a Hi) as [_ Hm].
  destruct (Hm m Ham) as (j & _ & Hj). by eapply list_elem_of_lookup_2.
Qed.

Lemma tc_source_table G t u : tc (edge G) t u → is_Some (tableAt G t).
Proof.
  intros Htc. assert (∃ b, edge G t b) as [b Hb].
  { inversion Htc; subst; eauto. }
  unfold edge, refs in Hb. destruct (tableAt G t); [done|set_solver].
Qed.

(** ** Further properties, one by one *)

(** X1. A call of [visit] that returns without an error returns the
    collector it was given, extended at its end by exactly the tables the
    call has turned from [WHITE] to [BLACK], each once; all of them are
    reachable from [curTable], and [curTable] comes last when the call
    found it [WHITE]. This holds in every state, whatever [nodeColor] and
    the collector hold. *)
Theorem visit_appends_new_tables mapiter fuel anc cur col σ col' σ' :
  fair mapiter →
  visit mapiter fuel anc cur col σ = Returned (col', None) σ' →
  (∃ new, col' = col ++ new ∧ NoDup new ∧
     (∀ t, t ∈ new ↔
           color (nodeColor σ) t = WHITE ∧ color (nodeColor σ') t = BLACK) ∧
     (∀ t, t ∈ new → rtc (edge (tables σ)) cur t)) ∧
  (color (nodeColor σ) cur = WHITE → last col' = Some cur).
Proof.
  intros Hfair Hrun.
  destruct (visit_grows mapiter Hfair fuel anc cur col σ col' σ' Hrun)
    as [(new & Hcol & Hnd & Hin & Hreach) Hlast].
  split; [|exact Hlast]. exists new. by split_and!.
Qed.

Lemma visit_appends_new_tables_witness :
  ∃ col' σ',
    visit canonical_order 5 ["site"] "orders" ["products"] orders_pending
      = Returned (col', None) σ' ∧
    (∃ new, col' = ["products"] ++ new ∧ NoDup new ∧
       (∀ t, t ∈ new ↔
             color (nodeColor orders_pending) t = WHITE ∧
             color (nodeColor σ') t = BLACK) ∧
       (∀ t, t ∈ new → rtc (edge (tables orders_pending)) "orders" t)) ∧
    (color (nodeColor orders_pending) "orders" = WHITE →
     last col' = Some "orders").
Proof.
  assert (∃ col' σ',
    visit canonical_order 5 ["site"] "orders" ["products"] orders_pending
      = Returned (col', None) σ') as (col' & σ' & Hrun)
    by (vm_compute; eauto).
  exists col', σ'. split; [exact Hrun|].
  exact (visit_appends_new_tables canonical_order 5 ["site"] "orders"
           ["products"] orders_pending col' σ' fair_canonical Hrun).
Defined.

(** X2. The only error [visit] ever returns is the cycle error: it comes
    with the nil slice and names a table that is [GREY] in the state the
    call leaves behind. This holds in every state and for every iteration
    order. *)
Theorem visit_error_is_cycle_error mapiter fuel anc cur col σ r e σ' :
  visit mapiter fuel anc cur col σ = Returned (r, Some e) σ' →
  r = [] ∧
  ∃ t, e = "found reference loops while visiting table " +:+ t ∧
       color (nodeColor σ') t = GREY.
Proof.
  revert anc cur col σ r e σ'.
  induction fuel as [|fuel IH]; intros anc cur col σ r e σ'; [done|].
  rewrite visit_S. cbv zeta.
  destruct (color (nodeColor σ) cur) eqn:Hc; [| |done].
  2:{ intros [= <- <- <-]. eauto. }
  destruct (tableAt (tables σ) cur) as [info|]; [|done].
  set (σ2 := observe AtRange anc cur _).
  pose proof (visit_each_rule (visit mapiter fuel (cur :: anc))
    (λ _ _ _, True)
    (λ e τ, ∃ t, e = cycleError t ∧ color (nodeColor τ) t = GREY)
    (λ _, True) True
    (mapiter (rng σ) (referencedTables info)) [] col σ2 I) as Hloop.
  lapply Hloop; clear Hloop.
  2:{ intros seen x c τ _ _. unfold call_post.
      pose proof (IH (cur :: anc) x c τ) as IHx.
      destruct (visit mapiter fuel (cur :: anc) x c τ)
        as [[c' [e'|]] τ'|τ'|]; [|done..].
      by destruct (IHx c' e' τ' eq_refl). }
  intros Hloop. simpl in Hloop.
  destruct (visit_each _ _ _ _) as [[c' [e'|]] σ3|σ3|]; [|done..].
  intros [= <- <- <-]. done.
Qed.


Lemma visit_error_is_cycle_error_witness :
  ∃ r e σ',
    visit reversed_order 5 [] "line_items" ["products"] orders_in_progress
      = Returned (r, Some e) σ' ∧
    r = [] ∧
    ∃ t, e = "found reference loops while visiting table " +:+ t ∧
         color (nodeColor σ') t = GREY.
Proof.
  assert (∃ r e σ',
    visit reversed_order 5 [] "line_items" ["products"] orders_in_progress
      = Returned (r, Some e) σ') as (r & e & σ' & Hrun)
    by (vm_compute; eauto).
  exists r, e, σ'. split; [exact Hrun|].
  exact (visit_error_is_cycle_error reversed_order 5 [] "line_items"
           ["products"] orders_in_progress r e σ' Hrun).
Defined.

(** X3. However a call of [visit] ends, by a return, an error or a
    panic, a table that was [GREY] or [BLACK] when the call started has
    the same colour afterwards: [visit] writes [nodeColor] only at tables
    it finds [WHITE]. *)
Theorem visit_touches_only_white mapiter fuel anc cur col σ σ' t :
  outcome_state (visit mapiter fuel anc cur col σ) = Some σ' →
  color (nodeColor σ) t ≠ WHITE →
  color (nodeColor σ') t = color (nodeColor σ) t.
Proof.
  intros Hrun Ht. apply visit_extends in Hrun as (_ & Hkeep & _).
  by apply Hkeep.
Qed.

Lemma visit_touches_only_white_witness :
  ∃ σ',
    outcome_state (visit canonical_order 5 [] "line_items" [] orders_pending)
      = Some σ' ∧
    color (nodeColor σ') "products" = color (nodeColor orders_pending) "products".
Proof.
  assert (∃ σ',
    outcome_state (visit canonical_order 5 [] "line_items" [] orders_pending)
      = Some σ') as (σ' & Hrun) by (vm_compute; eauto).
  exists σ'. split; [exact Hrun|].
  apply (visit_touches_only_white canonical_order 5 [] "line_items" []
           orders_pending σ' "products" Hrun).
  vm_compute. discriminate.
Defined.

(** X4. In a state of a run (the traversal invariant holds for the call
    path and the collector), a call of [visit] that returns without an
    error leaves in the collector exactly what was there before and every
    table reachable from [curTable] along references. *)
Theorem visit_collects_reachable mapiter fuel anc cur col σ col' σ' :
  fair mapiter →
  Inv (tables σ) anc col (nodeColor σ) → chain (tables σ) (cur :: anc) →
  visit mapiter fuel anc cur col σ = Returned (col', None) σ' →
  ∀ t, t ∈ col' ↔ t ∈ col ∨ rtc (edge (tables σ)) cur t.
Proof.
  intros Hfair HI Hch Hrun t.
  pose proof (visit_spec mapiter Hfair fuel anc cur col σ HI Hch) as Hpost.
  rewrite Hrun in Hpost. destruct Hpost as (HI' & Hbl & Hpre & _).
  destruct (visit_grows mapiter Hfair fuel anc cur col σ col' σ' Hrun)
    as [(new & -> & _ & _ & Hreach) _].
  split.
  - intros [?|?]%elem_of_app; eauto.
  - intros [Ht|Ht].
    + apply elem_of_app. by left.
    + eapply Inv_closed; [done| |done]. by apply (inv_black _ _ _ _ HI').
Qed.

Lemma visit_collects_reachable_witness :
  ∃ col' σ',
    visit canonical_order 5 [] "orders" [] (initial shop)
      = Returned (col', None) σ' ∧
    ∀ t, t ∈ col' ↔ t ∈ [] ∨ rtc (edge (tables (initial shop))) "orders" t.
Proof.
  assert (∃ col' σ',
    visit canonical_order 5 [] "orders" [] (initial shop)
      = Returned (col', None) σ') as (col' & σ' & Hrun)
    by (vm_compute; eauto).
  exists col', σ'. split; [exact Hrun|].
  apply (visit_collects_reachable canonical_order 5 [] "orders" []
           (initial shop) col' σ' fair_canonical); [|exact I|exact Hrun].
  apply Inv_start. intros t. apply color_empty.
Defined.

(** X5. [topoSortTables] returns a sequence with a nil error exactly on
    the maps in which every key holds a table, every referenced name is a
    key and no chain of references leads from a table back to itself,
    whatever the iteration order. *)
Theorem topoSortTables_succeeds_iff mapiter fuel G :
  fair mapiter → size (dom G) < fuel →
  (∃ l σ', topoSortTables mapiter fuel G = Returned (l, None) σ') ↔
  well_formed G ∧ acyclic G.
Proof.
  intros Hfair Hfuel. split.
  - intros (l & σ' & Hrun).
    pose proof (topoSortTables_spec mapiter Hfair fuel G Hfuel) as Hpost.
    rewrite Hrun in Hpost. destruct Hpost as (HI & Hall & _).
    pose proof (Inv_is_order _ _ _ HI Hall) as Hord.
    split; [by eapply is_order_well_formed|by eapply is_order_acyclic].
  - intros [Hwf Hac].
    destruct (topoSortTables_acyclic mapiter fuel G Hfair Hwf Hac Hfuel)
      as (l & σ' & Hrun & _). eauto.
Qed.

Lemma topoSortTables_succeeds_iff_witness :
  (∃ l σ', topoSortTables reversed_order 5 diamond_graph
             = Returned (l, None) σ') ↔
  well_formed diamond_graph ∧ acyclic diamond_graph.
Proof.
  apply topoSortTables_succeeds_iff; [apply fair_reversed|vm_compute; lia].
Defined.

(** X6. [topoSortTables] raises no false alarm: when it returns an
    error, the slice is nil and the table the error names holds a table
    entry and lies on a cycle of references, on every map and for every
    iteration order. *)
Theorem topoSortTables_error_sound mapiter fuel G r e σ' :
  fair mapiter → size (dom G) < fuel →
  topoSortTables mapiter fuel G = Returned (r, Some e) σ' →
  r = [] ∧
  ∃ t, e = "found reference loops while visiting table " +:+ t ∧
       tc (edge G) t t ∧ is_Some (tableAt G t).
Proof.
  intros Hfair Hfuel Hrun.
  pose proof (topoSortTables_spec mapiter Hfair fuel G Hfuel) as Hpost.
  rewrite Hrun in Hpost. destruct Hpost as (-> & (t & -> & Htc & _) & _).
  split; [done|]. exists t. split_and!; [done..|]. by eapply tc_source_table.
Qed.

Lemma topoSortTables_error_sound_witness :
  ∃ r e σ',
    topoSortTables canonical_order 5 diamond_and_cycle
      = Returned (r, Some e) σ' ∧
    r = [] ∧
    ∃ t, e = "found reference loops while visiting table " +:+ t ∧
         tc (edge diamond_and_cycle) t t ∧
         is_Some (tableAt diamond_and_cycle t).
Proof.
  assert (∃ r e σ',
    topoSortTables canonical_order 5 diamond_and_cycle
      = Returned (r, Some e) σ') as (r & e & σ' & Hrun)
    by (vm_compute; eauto).
  exists r, e, σ'. split; [exact Hrun|].
  apply (topoSortTables_error_sound canonical_order 5 diamond_and_cycle
           r e σ' fair_canonical); [vm_compute; lia|exact Hrun].
Defined.

(** X7. The iteration order of the maps decides neither whether
    [topoSortTables] returns a sequence nor which tables the sequence
    holds: if one run returns a sequence, a run with any other iteration
    order returns a rearrangement of it. *)
Theorem topoSortTables_order_independent mapiter1 mapiter2 fuel1 fuel2 G l1 σ1 :
  fair mapiter1 → fair mapiter2 →
  size (dom G) < fuel1 → size (dom G) < fuel2 →
  topoSortTables mapiter1 fuel1 G = Returned (l1, None) σ1 →
  ∃ l2 σ2, topoSortTables mapiter2 fuel2 G = Returned (l2, None) σ2 ∧
           l1 ≡ₚ l2.
Proof.
  intros Hfair1 Hfair2 Hfuel1 Hfuel2 Hrun1.
  pose proof (topoSortTables_spec mapiter1 Hfair1 fuel1 G Hfuel1) as Hpost.
  rewrite Hrun1 in Hpost. destruct Hpost as (HI1 & Hall1 & _).
  pose proof (Inv_is_order _ _ _ HI1 Hall1) as Hord1.
  destruct (topoSortTables_acyclic mapiter2 fuel2 G Hfair2
              (is_order_well_formed _ _ Hord1) (is_order_acyclic _ _ Hord1)
              Hfuel2) as (l2 & σ2 & Hrun2 & HI2 & Hall2 & Ho2).
  exists l2, σ2. split; [done|].
  apply NoDup_Permutation; [by eapply inv_nodup..|].
  intros t. split.
  - intros [i Hi]%list_elem_of_lookup. apply Hall2.
    destruct (proj2 Hord1 i t Hi) as [[info Hinfo] _]. by eapply tableAt_dom.
  - intros [i Hi]%list_elem_of_lookup. apply Hall1.
    destruct (Ho2 i t Hi) as [[info Hinfo] _]. by eapply tableAt_dom.
Qed.

Lemma topoSortTables_order_independent_witness :
  ∃ l1 σ1 l2 σ2,
    topoSortTables canonical_order 5 shop = Returned (l1, None) σ1 ∧
    topoSortTables reversed_order 6 shop = Returned (l2, None) σ2 ∧
    l1 ≡ₚ l2.
Proof.
  assert (∃ l1 σ1, topoSortTables canonical_order 5 shop
                   = Returned (l1, None) σ1) as (l1 & σ1 & Hrun1)
    by (vm_compute; eauto).
  assert (Hfuel1 : size (dom shop) < 5) by (vm_compute; lia).
  assert (Hfuel2 : size (dom shop) < 6) by (vm_compute; lia).
  destruct (topoSortTables_order_independent canonical_order reversed_order
              5 6 shop l1 σ1 fair_canonical fair_reversed Hfuel1 Hfuel2 Hrun1)
    as (l2 & σ2 & Hrun2 & Hperm).
  exists l1, σ1, l2, σ2. split_and!; [exact Hrun1|exact Hrun2|exact Hperm].
Defined.

Lemma Inv_final_colour G l c t :
  Inv G [] l c → (∀ x, x ∈ dom G → x ∈ l) →
  color c t = if decide (t ∈ dom G) then BLACK else WHITE.
Proof.
  intros HI Hall. destruct (decide (t ∈ dom G)) as [Ht|Ht].
  - by apply (inv_black _ _ _ _ HI), Hall.
  - destruct (color c t) eqn:Hc; [done|..].
    + apply (inv_grey _ _ _ _ HI) in Hc. by apply elem_of_nil in Hc.
    + apply (inv_black _ _ _ _ HI), list_elem_of_lookup in Hc as [i Hi].
      destruct (inv_order _ _ _ _ HI i t Hi) as [[info Hinfo] _].
      destruct Ht. by eapply tableAt_dom.
Qed.

(** X8. When [topoSortTables] returns a sequence, it leaves every key of
    the table map [BLACK] and every other name [WHITE]: no table stays in
    progress. *)
Theorem topoSortTables_final_colours mapiter fuel G l σ' :
  fair mapiter → size (dom G) < fuel →
  topoSortTables mapiter fuel G = Returned (l, None) σ' →
  ∀ t, color (nodeColor σ') t = if decide (t ∈ dom G) then BLACK else WHITE.
Proof.
  intros Hfair Hfuel Hrun t.
  pose proof (topoSortTables_spec mapiter Hfair fuel G Hfuel) as Hpost.
  rewrite Hrun in Hpost. destruct Hpost as (HI & Hall & _).
  by apply (Inv_final_colour G l).
Qed.

Lemma topoSortTables_final_colours_witness :
  ∃ l σ', topoSortTables canonical_order 5 shop = Returned (l, None) σ' ∧
    ∀ t, color (nodeColor σ') t
         = if decide (t ∈ dom shop) then BLACK else WHITE.
Proof.
  assert (∃ l σ', topoSortTables canonical_order 5 shop
                  = Returned (l, None) σ') as (l & σ' & Hrun)
    by (vm_compute; eauto).
  exists l, σ'. split; [exact Hrun|].
  apply (topoSortTables_final_colours canonical_order 5 shop l σ'
           fair_canonical); [vm_compute; lia|exact Hrun].
Defined.

(** X9. In a run of [topoSortTables] that returns a sequence, the
    references of every key of the table map are ranged over exactly
    once, by the one call of [visit] that finds the key [WHITE]; for a
    name that is not a key there is no such call and no such range. *)
Theorem topoSortTables_ranges_exactly_once mapiter fuel G l σ' :
  fair mapiter → size (dom G) < fuel →
  topoSortTables mapiter fuel G = Returned (l, None) σ' →
  ∀ t, ranges (log σ') t = (if decide (t ∈ dom G) then 1 else 0) ∧
       white_entries (log σ') t = (if decide (t ∈ dom G) then 1 else 0).
Proof.
  intros Hfair Hfuel Hrun t.
  pose proof (topoSortTables_spec mapiter Hfair fuel G Hfuel) as Hpost.
  rewrite Hrun in Hpost. destruct Hpost as (HI & Hall & _).
  pose proof (Inv_final_colour G l (nodeColor σ') t HI Hall) as Hcol.
  assert (Hst : outcome_state (topoSortTables mapiter fuel G) = Some σ')
    by by rewrite Hrun.
  destruct (topoSortTables_counts mapiter fuel G σ' Hst t) as (Hle & Hone & Hw).
  pose proof (topoSortTables_ranged mapiter fuel G σ' Hst t) as Hr.
  destruct (decide (t ∈ dom G)).
  - specialize (Hr Hcol). lia.
  - assert (white_entries (log σ') t ≠ 1) by (intros H1; by apply Hw).
    lia.
Qed.

Lemma topoSortTables_ranges_exactly_once_witness :
  ∃ l σ', topoSortTables reversed_order 5 diamond_graph
            = Returned (l, None) σ' ∧
    ∀ t, ranges (log σ') t
         = (if decide (t ∈ dom diamond_graph) then 1 else 0) ∧
         white_entries (log σ') t
         = (if decide (t ∈ dom diamond_graph) then 1 else 0).
Proof.
  assert (∃ l σ', topoSortTables reversed_order 5 diamond_graph
                  = Returned (l, None) σ') as (l & σ' & Hrun)
    by (vm_compute; eauto).
  exists l, σ'. split; [exact Hrun|].
  apply (topoSortTables_ranges_exactly_once reversed_order 5 diamond_graph
           l σ' fair_reversed); [vm_compute; lia|exact Hrun].
Defined.

(** X10. When a run of [topoSortTables] panics, the last thing it did
    was to mark [GREY] a name for which the table map holds no table (a
    key with a nil pointer, or a referenced name that is not a key); the
    panic is the read of that table. *)
Theorem topoSortTables_panic_site mapiter fuel G σ' :
  fair mapiter →
  topoSortTables mapiter fuel G = Panicked σ' →
  ∃ anc t, head (log σ') = Some (Snap AtGrey anc t (nodeColor σ')) ∧
           color (nodeColor σ') t = GREY ∧
           tableAt G t = None ∧ (t ∈ dom G ∨ ∃ a, edge G a t).
Proof.
  intros Hfair Hrun.
  destruct (topoSortTables_panic mapiter fuel G σ' Hfair Hrun)
    as (anc & t & Hhead & Hgrey & Hnone & Hwhere).
  exists anc, t. by split_and!.
Qed.

Lemma topoSortTables_panic_site_witness :
  ∃ σ', topoSortTables canonical_order 2 unknown_ref = Panicked σ' ∧
    ∃ anc t, head (log σ') = Some (Snap AtGrey anc t (nodeColor σ')) ∧
             color (nodeColor σ') t = GREY ∧
             tableAt unknown_ref t = None ∧
             (t ∈ dom unknown_ref ∨ ∃ a, edge unknown_ref a t).
Proof.
  assert (∃ σ', topoSortTables canonical_order 2 unknown_ref = Panicked σ')
    as (σ' & Hrun) by (vm_compute; eauto).
  exists σ'. split; [exact Hrun|].
  exact (topoSortTables_panic_site canonical_order 2 unknown_ref σ'
           fair_canonical Hrun).
Defined.

(** ** The query helpers *)

Lemma newQuery_Ret attr uids srcFunc ts q ts' :
  newQuery attr uids srcFunc ts = (Ret q, ts') →
  ts' = ((ts + 1) mod 2 ^ 64)%N ∧ ReadTs q = ts' ∧
  Attr q = attr ∧ Uids (UidList q) = uids ∧
  srcFunc_of q = default [] srcFunc ∧ len srcFunc ≠ 1.
Proof.
  unfold newQuery, len. case_bool_decide; [|done].
  destruct srcFunc as [[|a [|b rest]]|]; simpl; try done.
  - by intros [= <- <-].
  - destruct (decide (b = "")) as [->|Hb]; intros [= <- <-];
      unfold srcFunc_of; simpl; by destruct rest.
  - by intros [= <- <-].
Qed.

Lemma stamp_advances (n : N) :
  (n < 2 ^ 64)%N → ((n + 1) mod 2 ^ 64)%N ≠ n.
Proof.
  intros Hn. change (2 ^ 64)%N with 18446744073709551616%N in *.
  destruct (decide (n + 1 < 18446744073709551616)%N) as [Hlt|Hge].
  - rewrite N.mod_small by done. lia.
  - assert (n + 1 = 18446744073709551616)%N as -> by lia.
    rewrite N.Div0.mod_same. lia.
Qed.

(** X11. Once the assertion on its arguments holds, [newQuery] returns
    for every [srcFunc] but one of length 1; it then stamps the query
    with the counter [ts] advanced by one (modulo [2^64]). On a [srcFunc]
    of length 1 it panics on the slice bound of [srcFunc[2:]], before it
    has touched the counter. *)
Theorem newQuery_returns_or_panics attr uids srcFunc ts :
  uids = None ∨ srcFunc = None →
  (len srcFunc ≠ 1 →
     ∃ q, newQuery attr uids srcFunc ts = (Ret q, ((ts + 1) mod 2 ^ 64)%N) ∧
          ReadTs q = ((ts + 1) mod 2 ^ 64)%N) ∧
  (len srcFunc = 1 → newQuery attr uids srcFunc ts = (PanicIndex, ts)).
Proof.
  intros Hassert. unfold newQuery, len. rewrite bool_decide_eq_true_2 by done.
  destruct srcFunc as [[|a [|b rest]]|]; simpl; split; try done; intros _.
  - eauto.
  - destruct (decide (b = "")); eauto.
  - eauto.
Qed.

Lemma newQuery_returns_or_panics_witness :
  (∃ q, newQuery "friend" None (Some ["anyofterms"; ""; "hey photon"]) 41
        = (Ret q, ((41 + 1) mod 2 ^ 64)%N) ∧
        ReadTs q = ((41 + 1) mod 2 ^ 64)%N) ∧
  newQuery "friend" None (Some ["anyofterms"]) 41 = (PanicIndex, 41%N).
Proof.
  split.
  - apply (newQuery_returns_or_panics "friend" None
             (Some ["anyofterms"; ""; "hey photon"]) 41); [by left|].
    vm_compute. lia.
  - apply (newQuery_returns_or_panics "friend" None (Some ["anyofterms"]) 41);
      [by left|reflexivity].
Defined.

(** X12. A query that [newQuery] returns keeps all it was given: the
    attribute, the uid slice, and the elements of [srcFunc], which are
    read back from the function name, the language and the arguments of
    the query. *)
Theorem newQuery_keeps_arguments attr uids srcFunc ts q ts' :
  newQuery attr uids srcFunc ts = (Ret q, ts') →
  Attr q = attr ∧ Uids (UidList q) = uids ∧
  srcFunc_of q = default [] srcFunc.
Proof.
  intros Hrun. by destruct (newQuery_Ret _ _ _ _ _ _ Hrun) as (_ & _ & ? & ? & ? & _).
Qed.

Lemma newQuery_keeps_arguments_witness :
  ∃ q ts',
    newQuery "friend" None (Some ["anyofterms"; "en"; "hey"; "photon"]) 7
      = (Ret q, ts') ∧
    Attr q = "friend" ∧ Uids (UidList q) = None ∧
    srcFunc_of q = ["anyofterms"; "en"; "hey"; "photon"].
Proof.
  assert (∃ q ts',
    newQuery "friend" None (Some ["anyofterms"; "en"; "hey"; "photon"]) 7
      = (Ret q, ts')) as (q & ts' & Hrun) by (vm_compute; eauto).
  exists q, ts'. split; [exact Hrun|].
  exact (newQuery_keeps_arguments _ _ _ _ _ _ Hrun).
Defined.

(** X13. Two calls of [newQuery] that return one after the other, with
    nothing else touching the counter in between, stamp their queries
    with consecutive values (modulo [2^64]), hence with different ones. *)
Theorem newQuery_stamps_advance attr1 uids1 srcFunc1 attr2 uids2 srcFunc2
    ts q1 ts1 q2 ts2 :
  newQuery attr1 uids1 srcFunc1 ts = (Ret q1, ts1) →
  newQuery attr2 uids2 srcFunc2 ts1 = (Ret q2, ts2) →
  ReadTs q2 = ((ReadTs q1 + 1) mod 2 ^ 64)%N ∧ ReadTs q2 ≠ ReadTs q1.
Proof.
  intros H1 H2.
  destruct (newQuery_Ret _ _ _ _ _ _ H1) as (Hts1 & Hq1 & _).
  destruct (newQuery_Ret _ _ _ _ _ _ H2) as (Hts2 & Hq2 & _).
  rewrite Hq2, Hq1, Hts2. split; [done|].
  apply stamp_advances. rewrite Hts1. by apply N.mod_lt.
Qed.

Lemma newQuery_stamps_advance_witness :
  ∃ q1 ts1 q2 ts2,
    newQuery "friend" None None 18446744073709551614 = (Ret q1, ts1) ∧
    newQuery "name" (Some [10%N]) None ts1 = (Ret q2, ts2) ∧
    ReadTs q2 = ((ReadTs q1 + 1) mod 2 ^ 64)%N ∧ ReadTs q2 ≠ ReadTs q1.
Proof.
  assert (∃ q1 ts1, newQuery "friend" None None 18446744073709551614
                    = (Ret q1, ts1)) as (q1 & ts1 & H1)
    by (vm_compute; eauto).
  assert (∃ q2 ts2, newQuery "name" (Some [10%N]) None ts1 = (Ret q2, ts2))
    as (q2 & ts2 & H2).
  { destruct (newQuery_Ret _ _ _ _ _ _ H1) as (-> & _).
    vm_compute. eauto. }
  exists q1, ts1, q2, ts2. split_and!; [exact H1|exact H2|..];
    apply (newQuery_stamps_advance _ _ _ _ _ _ _ _ _ _ _ H1 H2).
Defined.

(** X14. Once the assertion on its arguments holds, [runQuery] builds a
    query and hands it over unless [uids] is nil and [srcFunc] has fewer
    than two elements; in that case it panics on [srcFunc[1]]. So with
    both slices nil [runQuery] panics, where [newQuery] returns. *)
Theorem runQuery_hands_over_or_panics quote attr uids srcFunc :
  uids = None ∨ srcFunc = None →
  (runQuery quote attr uids srcFunc = PanicIndex ↔
     uids = None ∧ len srcFunc < 2) ∧
  (uids ≠ None ∨ 2 ≤ len srcFunc →
     ∃ query, runQuery quote attr uids srcFunc = Ret query).
Proof.
  intros Hassert. unfold runQuery, len. rewrite bool_decide_eq_true_2 by done.
  destruct uids as [ids|]; simpl.
  - split; [|eauto]. split; [done|]. by intros [[=] _].
  - destruct srcFunc as [[|a [|b rest]]|]; simpl.
    + split; [split; [intros _; split; [done|lia]|done]|]. intros [?|?]; [done|lia].
    + split; [split; [intros _; split; [done|lia]|done]|]. intros [?|?]; [done|lia].
    + split; [split; [done|intros [_ ?]; lia]|eauto].
    + split; [split; [intros _; split; [done|lia]|done]|]. intros [?|?]; [done|lia].
Qed.

Lemma runQuery_hands_over_or_panics_witness :
  (runQuery (λ s, s) "friend" None None = PanicIndex ↔
     (None : option (list N)) = None ∧ len (None : option (list string)) < 2) ∧
  (∃ query, runQuery (λ s, s) "neighbour" (Some [10%N; 11%N; 12%N]) None
            = Ret query).
Proof.
  split.
  - apply (runQuery_hands_over_or_panics (λ s, s) "friend" None None).
    by left.
  - apply (runQuery_hands_over_or_panics (λ s, s) "neighbour"
             (Some [10%N; 11%N; 12%N]) None); [by right|by left].
Defined.
